(** * Verification of the talemu network link reconciler

    Shallow embedding of [internal/pkg/machine/controllers/link_spec.go]:
    the wireguard diff codec ([wireguardSpec.Encode] / [wireguardSpec.Decode]),
    the per-link sync ([LinkSpecController.syncLink]) and one reconcile cycle
    of [LinkSpecController.Run]. *)

From Stdlib Require Import String Ascii List ZArith Bool Lia Sorted.
Import ListNotations.
Open Scope string_scope.
Open Scope Z_scope.
Open Scope list_scope.
Set Warnings "-register-all".

(** ** Results and errors *)

(** The Go [error] values produced by this file, each kept with the
    message it is wrapped in. *)
Inductive Error :=
| ErrParseKey (s : string)                     (* wgtypes.ParseKey failure *)
| ErrResolveUDPAddr (s : string)               (* net.ResolveUDPAddr failure *)
| ErrNoDev                                     (* ENODEV from the kernel / device *)
| ErrExist                                     (* EEXIST from the kernel *)
| ErrIO                                        (* socket or store failure *)
| ErrWrap (msg : string) (name : string) (inner : Error)
| ErrCreatedNotFound (name : string)
| ErrWireguardUnavailable (name : string)
| ErrBumpRefresh
| ErrMulti (errs : list Error).                (* *multierror.Error *)

Inductive Result (A : Type) :=
| Ok (a : A)
| Err (e : Error).
Arguments Ok {A} a.
Arguments Err {A} e.

Definition rbind {A B} (r : Result A) (f : A -> Result B) : Result B :=
  match r with
  | Ok a => f a
  | Err e => Err e
  end.

Notation "x <-? c ;; k" := (rbind c (fun x => k))
  (at level 61, c at next level, right associativity).

(** ** The wgtypes / net library, as an interface

    [wgtypes.Key] with [ParseKey] and [Key.String], [net.UDPAddr] with
    [net.ResolveUDPAddr] and [UDPAddr.String] are library code, not part of
    this repository: the codec is stated over them as an interface. *)
Class WgLib := {
  Key : Type;
  key_eqb : Key -> Key -> bool;
  key_eqb_spec : forall a b, key_eqb a b = true <-> a = b;
  zeroKey : Key;                          (* var zeroKey wgtypes.Key *)
  KeyString : Key -> string;              (* Key.String(), base64 *)
  ParseKey : string -> option Key;        (* wgtypes.ParseKey *)
  PublicKeyOf : Key -> Key;               (* curve25519 public key of a private key *)
  ClampKey : Key -> Key;                  (* the kernel's clamping of a private key it is given *)
  UDPAddr : Type;
  UDPAddrString : UDPAddr -> string;      (* UDPAddr.String() *)
  ResolveUDPAddr : string -> option UDPAddr  (* net.ResolveUDPAddr("", s) *)
}.

(** [netip.Prefix] (equivalently [net.IPNet], the conversions
    [netipx.PrefixIPNet] / [netipx.FromStdIPNet] being inverse on the
    prefixes used here): address and prefix length. *)
Definition Prefix := (Z * Z)%type.

Definition prefix_eqb (a b : Prefix) : bool :=
  (fst a =? fst b) && (snd a =? snd b).

Fixpoint list_eqb {A} (eqb : A -> A -> bool) (xs ys : list A) : bool :=
  match xs, ys with
  | [], [] => true
  | x :: xs', y :: ys' => eqb x y && list_eqb eqb xs' ys'
  | _, _ => false
  end.

(** ** network.WireguardPeer / network.WireguardSpec (talos machinery) *)
Record WireguardPeer := {
  PublicKey : string;
  PresharedKey : string;
  Endpoint : string;
  PersistentKeepaliveInterval : Z;   (* time.Duration *)
  AllowedIPs : list Prefix
}.

Record WireguardSpec := {
  PrivateKey : string;
  SpecPublicKey : string;            (* WireguardSpec.PublicKey (status view) *)
  ListenPort : Z;
  FirewallMark : Z;
  Peers : list WireguardPeer
}.

Definition emptyWireguardSpec : WireguardSpec :=
  {| PrivateKey := ""; SpecPublicKey := ""; ListenPort := 0; FirewallMark := 0; Peers := [] |}.

(** [WireguardPeer.Equal]: field by field. *)
Definition peer_Equal (a b : WireguardPeer) : bool :=
  String.eqb (PublicKey a) (PublicKey b)
  && String.eqb (PresharedKey a) (PresharedKey b)
  && String.eqb (Endpoint a) (Endpoint b)
  && (PersistentKeepaliveInterval a =? PersistentKeepaliveInterval b)
  && list_eqb prefix_eqb (AllowedIPs a) (AllowedIPs b).

(** [WireguardSpec.Equal] ([a.Equal(b)]): private key, port, mark and the
    peers pairwise; a port of 0 in [b] ("any available port") matches any
    port of [a]. *)
Definition spec_Equal (a b : WireguardSpec) : bool :=
  String.eqb (PrivateKey a) (PrivateKey b)
  && ((ListenPort a =? ListenPort b) || (ListenPort b =? 0))
  && (FirewallMark a =? FirewallMark b)
  && list_eqb peer_Equal (Peers a) (Peers b).

(** Go's [<] on strings: bytewise lexicographic order. *)
Definition str_lt (a b : string) : bool :=
  match String.compare a b with Lt => true | _ => false end.

Definition prefix_le (a b : Prefix) : bool :=
  (fst a <? fst b) || ((fst a =? fst b) && (snd a <=? snd b)).

Fixpoint insert_by {A} (le : A -> A -> bool) (x : A) (xs : list A) : list A :=
  match xs with
  | [] => [x]
  | y :: ys => if le x y then x :: y :: ys else y :: insert_by le x ys
  end.

Definition sort_by {A} (le : A -> A -> bool) (xs : list A) : list A :=
  fold_right (insert_by le) [] xs.

(** [WireguardSpec.Sort]: peers by public key, each peer's allowed IPs by
    address then prefix length. *)
Definition spec_Sort (s : WireguardSpec) : WireguardSpec :=
  {| PrivateKey := PrivateKey s; SpecPublicKey := SpecPublicKey s;
     ListenPort := ListenPort s; FirewallMark := FirewallMark s;
     Peers := map (fun p => {| PublicKey := PublicKey p; PresharedKey := PresharedKey p;
                              Endpoint := Endpoint p;
                              PersistentKeepaliveInterval := PersistentKeepaliveInterval p;
                              AllowedIPs := sort_by prefix_le (AllowedIPs p) |})
                  (sort_by (fun a b => negb (str_lt (PublicKey b) (PublicKey a))) (Peers s)) |}.

Section Codec.
Context `{WgLib}.

(** ** wgtypes.Peer / wgtypes.Device (the device state read back) *)
Record Peer := {
  PPublicKey : Key;
  PPresharedKey : Key;
  PEndpoint : option UDPAddr;        (* *net.UDPAddr, nil = None *)
  PPersistentKeepaliveInterval : Z;
  PAllowedIPs : list Prefix
}.

Record Device := {
  DPrivateKey : Key;
  DPublicKey : Key;
  DListenPort : Z;
  DFirewallMark : Z;
  DPeers : list Peer
}.

(** ** wgtypes.PeerConfig / wgtypes.Config (the patch); [None] is nil *)
Record PeerConfig := {
  PCPublicKey : Key;
  PCRemove : bool;
  PCPresharedKey : option Key;
  PCEndpoint : option UDPAddr;
  PCPersistentKeepaliveInterval : option Z;
  PCReplaceAllowedIPs : bool;
  PCAllowedIPs : list Prefix
}.

Record Config := {
  CPrivateKey : option Key;
  CListenPort : option Z;
  CFirewallMark : option Z;
  CPeers : list PeerConfig
}.

Definition parseKey (s : string) : Result Key :=
  match ParseKey s with Some k => Ok k | None => Err (ErrParseKey s) end.

Definition resolveUDPAddr (s : string) : Result UDPAddr :=
  match ResolveUDPAddr s with Some a => Ok a | None => Err (ErrResolveUDPAddr s) end.

(** The [addPeer] closure of [Encode]: an add/replace entry. *)
Definition addPeer (peer : WireguardPeer) : Result PeerConfig :=
  pubKey <-? parseKey (PublicKey peer) ;;
  presharedKey <-? (if String.eqb (PresharedKey peer) "" then Ok None
                    else k <-? parseKey (PresharedKey peer) ;; Ok (Some k)) ;;
  endpoint <-? (if String.eqb (Endpoint peer) "" then Ok None
                else a <-? resolveUDPAddr (Endpoint peer) ;; Ok (Some a)) ;;
  Ok {| PCPublicKey := pubKey; PCRemove := false; PCPresharedKey := presharedKey;
        PCEndpoint := endpoint;
        PCPersistentKeepaliveInterval := Some (PersistentKeepaliveInterval peer);
        PCReplaceAllowedIPs := true; PCAllowedIPs := AllowedIPs peer |}.

(** The [deletePeer] closure of [Encode]: a remove entry. *)
Definition deletePeer (peer : WireguardPeer) : Result PeerConfig :=
  pubKey <-? parseKey (PublicKey peer) ;;
  Ok {| PCPublicKey := pubKey; PCRemove := true; PCPresharedKey := None;
        PCEndpoint := None; PCPersistentKeepaliveInterval := None;
        PCReplaceAllowedIPs := false; PCAllowedIPs := [] |}.

Definition cons_r (r : Result PeerConfig) (rest : Result (list PeerConfig))
  : Result (list PeerConfig) :=
  pc <-? r ;; tl <-? rest ;; Ok (pc :: tl).

Fixpoint addAll (sp : list WireguardPeer) : Result (list PeerConfig) :=
  match sp with
  | [] => Ok []
  | right' :: sp' => cons_r (addPeer right') (addAll sp')
  end.

(** The two-cursor merge of [Encode] (lines 418-515): [ex] is
    [existing.Peers[l:]], [sp] is [spec.Peers[r:]]. *)
Fixpoint mergePeers (ex : list WireguardPeer) (sp : list WireguardPeer)
  : Result (list PeerConfig) :=
  match ex with
  | [] => addAll sp                               (* left' == nil *)
  | left' :: ex' =>
      let fix go (sp : list WireguardPeer) : Result (list PeerConfig) :=
        match sp with
        | [] => cons_r (deletePeer left') (mergePeers ex' [])   (* right' == nil *)
        | right' :: sp' =>
            if str_lt (PublicKey right') (PublicKey left') then
              cons_r (addPeer right') (go sp')                    (* left' > right' *)
            else if str_lt (PublicKey left') (PublicKey right') then
              cons_r (deletePeer left') (mergePeers ex' sp)       (* left' < right' *)
            else if peer_Equal left' right' then
              mergePeers ex' sp'                                 (* equal, identical *)
            else
              cons_r (addPeer right') (mergePeers ex' sp')        (* equal, replace *)
        end
      in go sp
  end.

(** [wireguardSpec.Encode]: [spec] is the receiver, [existing] the argument. *)
Definition Encode (spec existing : WireguardSpec) : Result Config :=
  privateKey <-? (if String.eqb (PrivateKey existing) (PrivateKey spec) then Ok None
                  else k <-? parseKey (PrivateKey spec) ;; Ok (Some k)) ;;
  let listenPort := if ListenPort existing =? ListenPort spec then None
                    else Some (ListenPort spec) in
  let firewallMark := if FirewallMark existing =? FirewallMark spec then None
                      else Some (FirewallMark spec) in
  peers <-? mergePeers (Peers existing) (Peers spec) ;;
  Ok {| CPrivateKey := privateKey; CListenPort := listenPort;
        CFirewallMark := firewallMark; CPeers := peers |}.

(** One iteration of the peer loop of [wireguardSpec.Decode]. *)
Definition decodePeer (p : Peer) : WireguardPeer :=
  {| PublicKey := KeyString (PPublicKey p);
     Endpoint := match PEndpoint p with Some a => UDPAddrString a | None => "" end;
     PresharedKey := if key_eqb (PPresharedKey p) zeroKey then ""
                     else KeyString (PPresharedKey p);
     PersistentKeepaliveInterval := PPersistentKeepaliveInterval p;
     AllowedIPs := PAllowedIPs p |}.

(** [wireguardSpec.Decode]: updates the receiver [spec] from [dev]. *)
Definition Decode (spec : WireguardSpec) (dev : Device) (isStatus : bool) : WireguardSpec :=
  {| PrivateKey := if isStatus then PrivateKey spec else KeyString (DPrivateKey dev);
     SpecPublicKey := if isStatus then KeyString (DPublicKey dev) else SpecPublicKey spec;
     ListenPort := DListenPort dev;
     FirewallMark := DFirewallMark dev;
     Peers := map decodePeer (DPeers dev) |}.

End Codec.

(** ** A concrete instance of the library interface, for evaluation

    A key is the 256-bit big-endian number of its 32 bytes.  [ParseKey] is
    [base64.StdEncoding.DecodeString] (CR and LF are skipped, the two
    trailing bits of the last digit are ignored) followed by the 32-byte
    length check of [wgtypes.ParseKey]: 43 digits and one pad.  [Key.String]
    is the canonical encoding.  The kernel clamps a private key by clearing
    the low three bits of byte 0 and the top bit of byte 31 and setting bit 6
    of byte 31. *)
Definition b64_alphabet : string :=
  "ABCDEFGHIJKLMNOPQRSTUVWXYZabcdefghijklmnopqrstuvwxyz0123456789+/".

Fixpoint index_of (c : ascii) (s : string) (i : Z) : option Z :=
  match s with
  | EmptyString => None
  | String d s' => if Ascii.eqb c d then Some i else index_of c s' (i + 1)
  end.

Definition b64_value (c : ascii) : option Z := index_of c b64_alphabet 0.

Definition b64_digit (v : Z) : ascii :=
  match String.get (Z.to_nat v) b64_alphabet with Some c => c | None => "A"%char end.

Fixpoint strip_newlines (s : string) : string :=
  match s with
  | EmptyString => EmptyString
  | String c s' =>
      if Ascii.eqb c (ascii_of_nat 10) || Ascii.eqb c (ascii_of_nat 13)
      then strip_newlines s' else String c (strip_newlines s')
  end.

(** [n] digits read so far, their value in [acc]. *)
Fixpoint b64_decode_key (s : string) (acc : Z) (n : nat) : option Z :=
  match s with
  | EmptyString => None
  | String c EmptyString =>
      if Ascii.eqb c "=" && Nat.eqb n 43 then Some (Z.shiftr acc 2) else None
  | String c s' =>
      match b64_value c with
      | Some v => b64_decode_key s' (acc * 64 + v) (S n)
      | None => None
      end
  end.

(** [n] leading zero digits in front of [acc]. *)
Fixpoint b64_pad (n : nat) (acc : string) : string :=
  match n with
  | O => acc
  | S n' => b64_pad n' (String "A"%char acc)
  end.

(** The base64 digits of [p], read six bits at a time from the least
    significant one, in front of [acc]: [v] holds the bits of the current
    digit read so far, [i] their count, [n] the number of digits written;
    the digits are padded to 43 with zero digits. *)
Fixpoint b64_bits (p : positive) (v i : Z) (n : nat) (acc : string) : string :=
  match p with
  | xH => b64_pad (43 - S n) (String (b64_digit (v + Z.shiftl 1 i)) acc)
  | xO p' =>
      if i =? 5 then b64_bits p' 0 0 (S n) (String (b64_digit v) acc)
      else b64_bits p' v (i + 1) n acc
  | xI p' =>
      let v' := v + Z.shiftl 1 i in
      if i =? 5 then b64_bits p' 0 0 (S n) (String (b64_digit v') acc)
      else b64_bits p' v' (i + 1) n acc
  end.

(** [Key.String]: the 256 bits of the key and two zero bits make 43
    digits, then the pad. *)
Definition b64_encode_key (k : Z) : string :=
  match k with
  | Zpos p => b64_bits p 0 2 0 "="
  | _ => b64_pad 43 "="
  end.

Definition clamp_key (k : Z) : Z :=
  Z.lor (Z.land k (Z.lnot (Z.lor (Z.shiftl 7 248) 128))) 64.

#[global] Instance TextWgLib : WgLib := {|
  Key := Z;
  key_eqb := Z.eqb;
  key_eqb_spec := Z.eqb_eq;
  zeroKey := 0;
  KeyString := b64_encode_key;
  ParseKey := fun s => b64_decode_key (strip_newlines s) 0 0;
  PublicKeyOf := fun k => k;
  ClampKey := clamp_key;
  UDPAddr := string;
  UDPAddrString := fun a => a;
  ResolveUDPAddr := fun s => Some s
|}.

(** A 44-character key text made of one repeated base64 digit. *)
Definition mkKey (c : Ascii.ascii) : string :=
  append (String.concat "" (repeat (String c EmptyString) 43)) "=".

(** The key a text parses to (0 when it does not parse). *)
Definition textKey (s : string) : Z :=
  match b64_decode_key (strip_newlines s) 0 0 with Some k => k | None => 0 end.

(** ** Kernel links: rtnetlink.LinkMessage as listed by the kernel

    [Info] is [Attributes.Info.Kind], [None] when [Attributes.Info] is nil. *)
Record KernelLink := {
  Family : Z;
  LinkType : Z;          (* LinkMessage.Type, uint16 *)
  Index : Z;             (* uint32 *)
  Flags : Z;             (* uint32 *)
  Name : string;
  MTU : Z;               (* uint32 *)
  Info : option string
}.

(** ** network.LinkSpec, with the resource phase *)
Inductive Phase := PhaseRunning | PhaseTearingDown.

Record LinkSpec := {
  SpecName : string;
  Logical : bool;
  Kind : string;
  SpecType : Z;          (* nethelpers.LinkType *)
  Up : bool;
  SpecMTU : Z;
  Wireguard : WireguardSpec;
  LinkPhase : Phase
}.

Definition LinkKindWireguard : string := "wireguard".
Definition IFF_UP : Z := 1.

(** The link types the kernel gives the links it creates: a wireguard link
    is [ARPHRD_NONE], an ethernet-like one [ARPHRD_ETHER]; the [Type] of the
    [RTM_NEWLINK] request is not used. *)
Definition ARPHRD_ETHER : Z := 1.
Definition ARPHRD_NONE : Z := 65534.

Definition kindLinkType (kind : string) : Z :=
  if String.eqb kind LinkKindWireguard then ARPHRD_NONE else ARPHRD_ETHER.

(** Go's [uint16(x)] conversion. *)
Definition uint16 (x : Z) : Z := Z.land x 65535.

(** The external calls the controller makes, in the order it makes them. *)
Inductive Call :=
| CallListSpecs
| CallAddFinalizer (name : string)
| CallRemoveFinalizer (name : string)
| CallLinkList
| CallLinkDelete (index : Z)
| CallLinkNew (name : string) (type : Z) (kind : string)
| CallLinkSetFlags (index flags change : Z)
| CallLinkSetMTU (index mtu : Z)
| CallWgDevice (name : string)
| CallWgConfigureDevice (name : string)
| CallBumpRefresh
| CallResetRestartBackoff.

(** [FindLink]: the first link of the list with the given name. *)
Definition FindLink (links : list KernelLink) (name : string) : option KernelLink :=
  find (fun l => String.eqb (Name l) name) links.

Section Reconciler.
Context `{WgLib}.

(** ** The world the controller acts on

    The kernel's link table and wireguard devices (with the port the kernel
    binds when a running device is asked for port 0), the resource store, the
    [LinkRefresh] counter, the cycle's [links] slice (shared with [syncLink]
    through a pointer), the set of calls the environment makes fail, and the
    log of calls made. *)
Record World := {
  kernelLinks : list KernelLink;
  nextIndex : Z;
  freePort : Z;
  devices : list (string * Device);
  specs : list LinkSpec;
  finalizers : list string;
  refreshCounter : Z;
  snapshot : list KernelLink;
  fault : Call -> bool;
  trace : list Call
}.

Definition set_kernel (ls : list KernelLink) (ni : Z) (ds : list (string * Device)) (w : World) : World :=
  {| kernelLinks := ls; nextIndex := ni; freePort := freePort w; devices := ds; specs := specs w;
     finalizers := finalizers w; refreshCounter := refreshCounter w;
     snapshot := snapshot w; fault := fault w; trace := trace w |}.

Definition set_finalizers (fs : list string) (w : World) : World :=
  {| kernelLinks := kernelLinks w; nextIndex := nextIndex w; freePort := freePort w; devices := devices w;
     specs := specs w; finalizers := fs; refreshCounter := refreshCounter w;
     snapshot := snapshot w; fault := fault w; trace := trace w |}.

Definition set_refresh (n : Z) (w : World) : World :=
  {| kernelLinks := kernelLinks w; nextIndex := nextIndex w; freePort := freePort w; devices := devices w;
     specs := specs w; finalizers := finalizers w; refreshCounter := n;
     snapshot := snapshot w; fault := fault w; trace := trace w |}.

Definition set_snapshot (ls : list KernelLink) (w : World) : World :=
  {| kernelLinks := kernelLinks w; nextIndex := nextIndex w; freePort := freePort w; devices := devices w;
     specs := specs w; finalizers := finalizers w; refreshCounter := refreshCounter w;
     snapshot := ls; fault := fault w; trace := trace w |}.

Definition record_call (c : Call) (w : World) : World :=
  {| kernelLinks := kernelLinks w; nextIndex := nextIndex w; freePort := freePort w; devices := devices w;
     specs := specs w; finalizers := finalizers w; refreshCounter := refreshCounter w;
     snapshot := snapshot w; fault := fault w; trace := trace w ++ [c] |}.

(** ** A state and error monad *)
Definition M (A : Type) := World -> World * Result A.

Definition ret {A} (a : A) : M A := fun w => (w, Ok a).
Definition fail {A} (e : Error) : M A := fun w => (w, Err e).
Definition bind {A B} (m : M A) (k : A -> M B) : M B :=
  fun w => match m w with
           | (w', Ok a) => k a w'
           | (w', Err e) => (w', Err e)
           end.

(** [fmt.Errorf(msg + " %q: %w", name, err)] around a call. *)
Definition wrap {A} (msg name : string) (m : M A) : M A :=
  fun w => match m w with
           | (w', Err e) => (w', Err (ErrWrap msg name e))
           | r => r
           end.

(** An external call: logged, failed when the environment fails it. *)
Definition call {A} (c : Call) (eff : World -> World * Result A) : M A :=
  fun w => let w := record_call c w in
           if fault w c then (w, Err ErrIO) else eff w.

End Reconciler.

Notation "x <- c ;; k" := (bind c (fun x => k))
  (at level 61, c at next level, right associativity).
Notation "c ;;; k" := (bind c (fun _ => k))
  (at level 61, right associativity).

Section Operations.
Context `{WgLib}.

(** ** Wireguard device configuration (wgctrl [ConfigureDevice])

    The documented meaning of [wgtypes.PeerConfig]: a nil field leaves the
    peer's value as it is; [Remove] deletes the peer; [ReplaceAllowedIPs]
    replaces the allowed IPs instead of appending to them; an unknown peer
    is created first.  (The kernel's reassignment of an allowed IP taken
    from another peer is not part of this model.) *)
Definition newPeer (k : Key) : Peer :=
  {| PPublicKey := k; PPresharedKey := zeroKey; PEndpoint := None;
     PPersistentKeepaliveInterval := 0; PAllowedIPs := [] |}.

Definition updatePeer (pc : PeerConfig) (p : Peer) : Peer :=
  {| PPublicKey := PPublicKey p;
     PPresharedKey := match PCPresharedKey pc with Some k => k | None => PPresharedKey p end;
     PEndpoint := match PCEndpoint pc with Some a => Some a | None => PEndpoint p end;
     PPersistentKeepaliveInterval :=
       match PCPersistentKeepaliveInterval pc with
       | Some d => d | None => PPersistentKeepaliveInterval p end;
     PAllowedIPs := if PCReplaceAllowedIPs pc then PCAllowedIPs pc
                    else PAllowedIPs p ++ PCAllowedIPs pc |}.

Definition applyPeerConfig (peers : list Peer) (pc : PeerConfig) : list Peer :=
  let same p := key_eqb (PPublicKey p) (PCPublicKey pc) in
  if PCRemove pc then filter (fun p => negb (same p)) peers
  else if existsb same peers then map (fun p => if same p then updatePeer pc p else p) peers
  else peers ++ [updatePeer pc (newPeer (PCPublicKey pc))].

(** The kernel's [set_device]: a private key is stored clamped; a port of 0
    binds [zeroPort], the port the kernel picks for a running device (0 on a
    device that is down). *)
Definition applyConfig (zeroPort : Z) (d : Device) (c : Config) : Device :=
  {| DPrivateKey := match CPrivateKey c with Some k => ClampKey k | None => DPrivateKey d end;
     DPublicKey := match CPrivateKey c with
                   | Some k => PublicKeyOf (ClampKey k) | None => DPublicKey d end;
     DListenPort := match CListenPort c with
                    | Some p => if p =? 0 then zeroPort else p
                    | None => DListenPort d end;
     DFirewallMark := match CFirewallMark c with Some m => m | None => DFirewallMark d end;
     DPeers := fold_left applyPeerConfig (CPeers c) (DPeers d) |}.

Definition emptyDevice : Device :=
  {| DPrivateKey := zeroKey; DPublicKey := zeroKey; DListenPort := 0;
     DFirewallMark := 0; DPeers := [] |}.

Definition defaultMTU (kind : string) : Z :=
  if String.eqb kind LinkKindWireguard then 1420 else 1500.

Definition lookup_device (name : string) (ds : list (string * Device)) : option Device :=
  option_map snd (find (fun p => String.eqb (fst p) name) ds).

Definition update_device (name : string) (d : Device) (ds : list (string * Device))
  : list (string * Device) :=
  map (fun p => if String.eqb (fst p) name then (name, d) else p) ds.

(** ** The kernel and store calls *)

(** [conn.Link.List()] *)
Definition linkList : M (list KernelLink) :=
  call CallLinkList (fun w => (w, Ok (kernelLinks w))).

(** [conn.Link.Delete(index)]: ENODEV when no link has the index. *)
Definition linkDelete (index : Z) : M unit :=
  call (CallLinkDelete index) (fun w =>
    match find (fun l => Index l =? index) (kernelLinks w) with
    | None => (w, Err ErrNoDev)
    | Some l =>
        (set_kernel (filter (fun l' => negb (Index l' =? index)) (kernelLinks w))
                    (nextIndex w)
                    (filter (fun p => negb (String.eqb (fst p) (Name l))) (devices w)) w,
         Ok tt)
    end).

(** [conn.Link.New(...)]: EEXIST when the name is taken; a new link is down,
    gets the next index and the type of its kind, and a wireguard link gets
    an empty device. *)
Definition linkNew (name : string) (type : Z) (kind : string) : M unit :=
  call (CallLinkNew name type kind) (fun w =>
    match FindLink (kernelLinks w) name with
    | Some _ => (w, Err ErrExist)
    | None =>
        let l := {| Family := 0; LinkType := kindLinkType kind; Index := nextIndex w; Flags := 0;
                    Name := name; MTU := defaultMTU kind; Info := Some kind |} in
        (set_kernel (kernelLinks w ++ [l]) (nextIndex w + 1)
                    (if String.eqb kind LinkKindWireguard
                     then devices w ++ [(name, emptyDevice)] else devices w) w,
         Ok tt)
    end).

Definition modifyLink (index : Z) (f : KernelLink -> KernelLink) (w : World)
  : World * Result unit :=
  match find (fun l => Index l =? index) (kernelLinks w) with
  | None => (w, Err ErrNoDev)
  | Some _ =>
      (set_kernel (map (fun l => if Index l =? index then f l else l) (kernelLinks w))
                  (nextIndex w) (devices w) w, Ok tt)
  end.

Definition withListenPort (d : Device) (p : Z) : Device :=
  {| DPrivateKey := DPrivateKey d; DPublicKey := DPublicKey d; DListenPort := p;
     DFirewallMark := DFirewallMark d; DPeers := DPeers d |}.

(** The kernel's [wg_open] on bringing a wireguard link up: the socket of a
    device whose port is 0 binds [freePort]. *)
Definition openDevice (name : string) (w : World) : World :=
  match lookup_device name (devices w) with
  | Some d =>
      if DListenPort d =? 0
      then set_kernel (kernelLinks w) (nextIndex w)
                      (update_device name (withListenPort d (freePort w)) (devices w)) w
      else w
  | None => w
  end.

Definition setFlags (flags change : Z) (l : KernelLink) : KernelLink :=
  {| Family := Family l; LinkType := LinkType l; Index := Index l;
     Flags := Z.lor (Z.land (Flags l) (Z.lnot change)) (Z.land flags change);
     Name := Name l; MTU := MTU l; Info := Info l |}.

(** [conn.Link.Set] with [Flags] and [Change]: only the masked bits change;
    a link going up opens its wireguard device, if it has one. *)
Definition setFlagsEffect (index flags change : Z) (w : World) : World * Result unit :=
    match find (fun l => Index l =? index) (kernelLinks w) with
    | None => (w, Err ErrNoDev)
    | Some l =>
        let w1 := fst (modifyLink index (setFlags flags change) w) in
        if (Z.land (Flags l) IFF_UP =? 0)
           && (Z.land (Flags (setFlags flags change l)) IFF_UP =? IFF_UP)
        then (openDevice (Name l) w1, Ok tt)
        else (w1, Ok tt)
    end.

Definition linkSetFlags (index flags change : Z) : M unit :=
  call (CallLinkSetFlags index flags change) (setFlagsEffect index flags change).

(** [conn.Link.Set] with [Attributes.MTU] only. *)
Definition linkSetMTU (index mtu : Z) : M unit :=
  call (CallLinkSetMTU index mtu) (modifyLink index (fun l =>
    {| Family := Family l; LinkType := LinkType l; Index := Index l; Flags := Flags l;
       Name := Name l; MTU := mtu; Info := Info l |})).

(** [wgClient.Device(name)] *)
Definition wgDevice (name : string) : M Device :=
  call (CallWgDevice name) (fun w =>
    match lookup_device name (devices w) with
    | Some d => (w, Ok d)
    | None => (w, Err ErrNoDev)
    end).

(** The port the kernel binds for a requested port 0: a free one when the
    link is up, none when it is down. *)
Definition zeroPortOf (name : string) (w : World) : Z :=
  match FindLink (kernelLinks w) name with
  | Some l => if Z.land (Flags l) IFF_UP =? IFF_UP then freePort w else 0
  | None => 0
  end.

(** [wgClient.ConfigureDevice(name, config)] *)
Definition wgConfigureDevice (name : string) (config : Config) : M unit :=
  call (CallWgConfigureDevice name) (fun w =>
    match lookup_device name (devices w) with
    | Some d => (set_kernel (kernelLinks w) (nextIndex w)
                            (update_device name (applyConfig (zeroPortOf name w) d config)
                                           (devices w)) w, Ok tt)
    | None => (w, Err ErrNoDev)
    end).

(** [safe.WriterModify] bumping [LinkRefresh(wireguard)]. *)
Definition bumpRefresh : M unit :=
  call CallBumpRefresh (fun w => (set_refresh (refreshCounter w + 1) w, Ok tt)).

(** [r.List] of the LinkSpec resources. *)
Definition listSpecs : M (list LinkSpec) :=
  call CallListSpecs (fun w => (w, Ok (specs w))).

(** [r.AddFinalizer] / [r.RemoveFinalizer]: idempotent. *)
Definition addFinalizer (name : string) : M unit :=
  call (CallAddFinalizer name) (fun w =>
    (set_finalizers (if existsb (String.eqb name) (finalizers w) then finalizers w
                     else finalizers w ++ [name]) w, Ok tt)).

Definition removeFinalizer (name : string) : M unit :=
  call (CallRemoveFinalizer name) (fun w =>
    (set_finalizers (filter (fun n => negb (String.eqb n name)) (finalizers w)) w, Ok tt)).

(** [r.ResetRestartBackoff()]: cannot fail. *)
Definition resetRestartBackoff : M unit :=
  fun w => (record_call CallResetRestartBackoff w, Ok tt).

Definition getLinks : M (list KernelLink) := fun w => (w, Ok (snapshot w)).

(** [*links, err = conn.Link.List()]: the slice is overwritten even on error,
    with the nil slice [List] returns then. *)
Definition refreshLinks : M (list KernelLink) :=
  fun w => match linkList w with
           | (w', Ok ls) => (set_snapshot ls w', Ok ls)
           | (w', Err e) => (set_snapshot [] w', Err (ErrWrap "error listing links" "" e))
           end.

(** [existing.Attributes.MTU = mtu] through the pointer into the slice:
    the first snapshot entry with the name. *)
Fixpoint setFirstMTU (name : string) (mtu : Z) (ls : list KernelLink) : list KernelLink :=
  match ls with
  | [] => []
  | l :: ls' =>
      if String.eqb (Name l) name then
        {| Family := Family l; LinkType := LinkType l; Index := Index l; Flags := Flags l;
           Name := Name l; MTU := mtu; Info := Info l |} :: ls'
      else l :: setFirstMTU name mtu ls'
  end.

Definition updateLinkMTU (name : string) (mtu : Z) : M unit :=
  fun w => (set_snapshot (setFirstMTU name mtu (snapshot w)) w, Ok tt).

End Operations.

Section Sync.
Context `{WgLib}.
Variable wgClient : bool.   (* whether [wgctrl.New()] succeeded *)

(** Lines 242-286: no usable kernel link; only a logical wireguard link is
    created, then the slice is re-listed and the link re-resolved.  [None]
    ends the sync without error. *)
Definition createLink (link : LinkSpec) : M (option KernelLink) :=
  if negb (Logical link) then ret None
  else if negb (String.eqb (Kind link) LinkKindWireguard) then ret None
  else
    wrap "error creating logical link" (SpecName link)
         (linkNew (SpecName link) (uint16 (SpecType link)) (Kind link)) ;;;
    links <- refreshLinks ;;
    match FindLink links (SpecName link) with
    | None => fail (ErrCreatedNotFound (SpecName link))
    | Some e => ret (Some e)
    end.

(** Lines 203-286: resolve the kernel link of a Running spec, deleting a
    logical link of the wrong kind or type (without re-listing the slice). *)
Definition resolveLink (link : LinkSpec) : M (option KernelLink) :=
  links <- getLinks ;;
  match FindLink links (SpecName link) with
  | Some existing =>
      if Logical link then
        match Info existing with
        | None => ret None        (* "requested logical link has no info, skipping sync" *)
        | Some kind =>
            if negb (LinkType existing =? uint16 (SpecType link))
               || negb (String.eqb kind (Kind link)) then
              wrap "error deleting link" (SpecName link) (linkDelete (Index existing)) ;;;
              createLink link
            else ret (Some existing)
        end
      else ret (Some existing)
  | None => createLink link
  end.

(** Lines 288-328: sync the wireguard settings. *)
Definition syncWireguard (link : LinkSpec) : M unit :=
  if negb wgClient then fail (ErrWireguardUnavailable (SpecName link))
  else
    wgDev <- wrap "error getting wireguard settings for" (SpecName link)
                  (wgDevice (SpecName link)) ;;
    let existingSpec := spec_Sort (Decode emptyWireguardSpec wgDev false) in
    let desired := spec_Sort (Wireguard link) in
    if spec_Equal existingSpec desired then ret tt
    else
      match Encode desired existingSpec with
      | Err e => fail (ErrWrap "error creating wireguard config patch for" (SpecName link) e)
      | Ok config =>
          wrap "error configuring wireguard device" (SpecName link)
               (wgConfigureDevice (SpecName link) config) ;;;
          (fun w => match bumpRefresh w with
                    | (w', Err _) => (w', Err ErrBumpRefresh)
                    | r => r
                    end)
      end.

(** Lines 330-350: sync the UP flag under the [IFF_UP] change mask. *)
Definition syncUp (link : LinkSpec) (existing : KernelLink) : M unit :=
  let existingUp := Z.land (Flags existing) IFF_UP =? IFF_UP in
  if Bool.eqb existingUp (Up link) then ret tt
  else
    let flags := if Up link then IFF_UP else 0 in
    wrap "error changing flags for" (SpecName link)
         (linkSetFlags (Index existing) flags IFF_UP).

(** Lines 352-368: sync the MTU when the spec sets one. *)
Definition syncMTU (link : LinkSpec) (existing : KernelLink) : M unit :=
  if negb (SpecMTU link =? 0) && negb (MTU existing =? SpecMTU link) then
    wrap "error setting MTU for" (SpecName link)
         (linkSetMTU (Index existing) (SpecMTU link)) ;;;
    updateLinkMTU (SpecName link) (SpecMTU link)
  else ret tt.

Definition syncSettings (link : LinkSpec) (existing : KernelLink) : M unit :=
  (if String.eqb (Kind link) LinkKindWireguard then syncWireguard link else ret tt) ;;;
  syncUp link existing ;;;
  syncMTU link existing.

(** Lines 176-201: TearingDown. *)
Definition syncTearingDown (link : LinkSpec) : M unit :=
  (if Logical link then
     links <- getLinks ;;
     match FindLink links (SpecName link) with
     | Some existing =>
         wrap "error deleting link" (SpecName link) (linkDelete (Index existing)) ;;;
         refreshLinks ;;;
         ret tt
     | None => ret tt
     end
   else ret tt) ;;;
  wrap "error removing finalizer" "" (removeFinalizer (SpecName link)).

(** [LinkSpecController.syncLink] *)
Definition syncLink (link : LinkSpec) : M unit :=
  match LinkPhase link with
  | PhaseTearingDown => syncTearingDown link
  | PhaseRunning =>
      existing <- resolveLink link ;;
      match existing with
      | None => ret tt
      | Some e => syncSettings link e
      end
  end.

(** ** One reconcile cycle of [LinkSpecController.Run] (lines 92-130) *)

Fixpoint addFinalizers (items : list LinkSpec) : M unit :=
  match items with
  | [] => ret tt
  | res :: rest =>
      match LinkPhase res with
      | PhaseRunning => wrap "error adding finalizer" "" (addFinalizer (SpecName res))
      | PhaseTearingDown => ret tt
      end ;;;
      addFinalizers rest
  end.

(** Lines 92-113: list the specs, add finalizers, snapshot the links. *)
Definition runPrelude : M (list LinkSpec) :=
  items <- wrap "error listing source network addresses" "" listSpecs ;;
  addFinalizers items ;;;
  links <- wrap "error listing links" "" linkList ;;
  (fun w => (set_snapshot links w, Ok items)).

(** Lines 116-124: every item is synced; errors go to [multiErr]. *)
Fixpoint syncAll (items : list LinkSpec) (multiErr : list Error) (w : World)
  : World * list Error :=
  match items with
  | [] => (w, multiErr)
  | link :: rest =>
      match syncLink link w with
      | (w', Ok _) => syncAll rest multiErr w'
      | (w', Err e) => syncAll rest (multiErr ++ [e]) w'
      end
  end.

(** Lines 126-130: [multiErr.ErrorOrNil()], else [r.ResetRestartBackoff()]. *)
Definition runCycle : M unit :=
  items <- runPrelude ;;
  (fun w => match syncAll items [] w with
            | (w', []) => resetRestartBackoff w'
            | (w', errs) => (w', Err (ErrMulti errs))
            end).

End Sync.

(** ** Concrete inputs *)

(** Example B of the spec: desired ListenPort 0, existing 51820. *)
Definition exampleB_desired : WireguardSpec :=
  {| PrivateKey := mkKey "K"; SpecPublicKey := ""; ListenPort := 0; FirewallMark := 0;
     Peers := [] |}.

Definition exampleB_existing : WireguardSpec :=
  {| PrivateKey := mkKey "K"; SpecPublicKey := ""; ListenPort := 51820; FirewallMark := 0;
     Peers := [] |}.

Definition exampleB_config : @Config TextWgLib :=
  {| CPrivateKey := None; CListenPort := Some 0; CFirewallMark := None; CPeers := [] |}.


(** ** Predicates used to state the reconciler's properties *)

(** The identity of a link: its index and name. *)
Definition linkKey (l : KernelLink) : Z * string := (Index l, Name l).

(** The cycle's slice lists exactly the kernel's links (by index and name). *)
Definition Reflects `{WgLib} (w : World) : Prop :=
  map linkKey (snapshot w) = map linkKey (kernelLinks w).

(** [m] only appends calls satisfying [P] to the log. *)
Definition Steps `{WgLib} {A} (P : Call -> Prop) (m : M A) : Prop :=
  forall w w' r, m w = (w', r) -> exists cs, trace w' = trace w ++ cs /\ Forall P cs.

(** [m] leaves the identities of the kernel's links and of the slice's
    links as they are. *)
Definition KeepsKeys `{WgLib} {A} (m : M A) : Prop :=
  forall w w' r, m w = (w', r) ->
    map linkKey (kernelLinks w') = map linkKey (kernelLinks w) /\
    map linkKey (snapshot w') = map linkKey (snapshot w).


Definition IsMTUCall (c : Call) : Prop :=
  match c with CallLinkSetMTU _ _ => True | _ => False end.


(** The sync loop of a cycle, item by item: every item is synced from the
    state the previous one left, and its error, if any, is recorded. *)
Inductive SyncsAll `{WgLib} (wg : bool) : list LinkSpec -> World -> World -> list Error -> Prop :=
| SyncsAll_nil w : SyncsAll wg [] w w []
| SyncsAll_ok link rest w w1 w2 errs :
    syncLink wg link w = (w1, Ok tt) ->
    SyncsAll wg rest w1 w2 errs ->
    SyncsAll wg (link :: rest) w w2 errs
| SyncsAll_err link rest w w1 w2 e errs :
    syncLink wg link w = (w1, Err e) ->
    SyncsAll wg rest w1 w2 errs ->
    SyncsAll wg (link :: rest) w w2 (e :: errs).

(** Kernel links and worlds used as concrete inputs. *)
Definition noFault : Call -> bool := fun _ => false.

Definition link_eth0 : KernelLink :=
  {| Family := 0; LinkType := 1; Index := 2; Flags := IFF_UP; Name := "eth0";
     MTU := 1500; Info := None |}.

Definition link_bond0_vlan : KernelLink :=
  {| Family := 0; LinkType := 1; Index := 3; Flags := 0; Name := "bond0";
     MTU := 1500; Info := Some "vlan" |}.

Definition link_wg0 : KernelLink :=
  {| Family := 0; LinkType := 65534; Index := 4; Flags := IFF_UP; Name := "wg0";
     MTU := 1420; Info := Some "wireguard" |}.

Definition link_wg0_noinfo : KernelLink :=
  {| Family := 0; LinkType := 65534; Index := 4; Flags := IFF_UP; Name := "wg0";
     MTU := 1420; Info := None |}.

(** A world at the start of the sync loop: the slice is the kernel's list. *)
Definition mkWorld (ls : list KernelLink) (ds : list (string * @Device TextWgLib))
  (items : list LinkSpec) : @World TextWgLib :=
  {| kernelLinks := ls; nextIndex := 10; freePort := 40000; devices := ds; specs := items;
     finalizers := map SpecName items; refreshCounter := 0; snapshot := ls;
     fault := noFault; trace := [] |}.

Definition mkSpec (name : string) (logical : bool) (kind : string) (type : Z)
  (up : bool) (mtu : Z) (wgspec : WireguardSpec) (phase : Phase) : LinkSpec :=
  {| SpecName := name; Logical := logical; Kind := kind; SpecType := type; Up := up;
     SpecMTU := mtu; Wireguard := wgspec; LinkPhase := phase |}.

Definition spec_eth0_teardown : LinkSpec :=
  mkSpec "eth0" false "" 1 true 0 emptyWireguardSpec PhaseTearingDown.

Definition spec_bond0_teardown : LinkSpec :=
  mkSpec "bond0" true "bond" 1 true 0 emptyWireguardSpec PhaseTearingDown.

Definition spec_wg1_teardown : LinkSpec :=
  mkSpec "wg1" true LinkKindWireguard 65534 true 0 emptyWireguardSpec PhaseTearingDown.

Definition world_eth0_bond0 : @World TextWgLib :=
  mkWorld [link_eth0; link_bond0_vlan] [] [].

Definition spec_bond0_running : LinkSpec :=
  mkSpec "bond0" true "bond" 1 true 0 emptyWireguardSpec PhaseRunning.

Definition spec_wg0_running : LinkSpec :=
  mkSpec "wg0" true LinkKindWireguard 65534 true 0 emptyWireguardSpec PhaseRunning.

Definition spec_eth0_mtu9000 : LinkSpec :=
  mkSpec "eth0" false "" 1 true 9000 emptyWireguardSpec PhaseRunning.

(** Three items: a bond whose kernel link is a VLAN, a wireguard link not
    yet created, and a physical link with a new MTU. *)
Definition world_cycle : @World TextWgLib :=
  mkWorld [link_eth0; link_bond0_vlan] []
          [spec_bond0_running; spec_wg0_running; spec_eth0_mtu9000].

(** A wireguard link whose kernel entry carries no kind metadata. *)
Definition world_wg0_noinfo : @World TextWgLib :=
  mkWorld [link_wg0_noinfo] [] [].

Definition spec_wg0_mtu9000 : LinkSpec :=
  mkSpec "wg0" true LinkKindWireguard 65534 true 9000 emptyWireguardSpec PhaseRunning.

(** A wireguard device with one peer [E...E=] that has a preshared key
    [g...g=], and a desired configuration where that peer has none; all key
    texts are canonical and the private key is already clamped. *)
Definition c1_privateKey : string := "SEhISEhISEhISEhISEhISEhISEhISEhISEhISEhISEg=".
Definition c1_peerKey : string := mkKey "E".
Definition c1_psk : string := mkKey "g".

Definition c1_device : @Device TextWgLib :=
  {| DPrivateKey := textKey c1_privateKey; DPublicKey := textKey c1_privateKey;
     DListenPort := 51820; DFirewallMark := 0;
     DPeers := [{| PPublicKey := textKey c1_peerKey; PPresharedKey := textKey c1_psk;
                   PEndpoint := None;
                   PPersistentKeepaliveInterval := 0; PAllowedIPs := [] |}] |}.

Definition c1_desired : WireguardSpec :=
  {| PrivateKey := c1_privateKey; SpecPublicKey := ""; ListenPort := 51820; FirewallMark := 0;
     Peers := [{| PublicKey := c1_peerKey; PresharedKey := ""; Endpoint := "";
                  PersistentKeepaliveInterval := 0; AllowedIPs := [] |}] |}.

Definition spec_wg0_c1 : LinkSpec :=
  mkSpec "wg0" true LinkKindWireguard 65534 true 0 c1_desired PhaseRunning.

Definition world_wg0_c1 : @World TextWgLib :=
  mkWorld [link_wg0] [("wg0", c1_device)] [].

(** ** Predicates and inputs for the further properties *)

Definition KeyLt (p q : WireguardPeer) : Prop := str_lt (PublicKey p) (PublicKey q) = true.

Definition ChangedFrom (ex : list WireguardPeer) (p : WireguardPeer) : Prop :=
  forall q, In q ex -> PublicKey q = PublicKey p -> peer_Equal q p = false.

Definition MergeEntry `{WgLib} (ex sp : list WireguardPeer) (pc : PeerConfig)
    (p : WireguardPeer) : Prop :=
  (deletePeer p = Ok pc /\ In p ex /\ ~ In (PublicKey p) (map PublicKey sp)) \/
  (addPeer p = Ok pc /\ In p sp /\ ChangedFrom ex p).

Definition MergeSpec `{WgLib} (ex sp : list WireguardPeer) (pcs : list PeerConfig) : Prop :=
  exists srcs, Forall2 (MergeEntry ex sp) pcs srcs /\ StronglySorted KeyLt srcs /\
    (forall q, In q ex -> ~ In (PublicKey q) (map PublicKey sp) -> In q srcs) /\
    (forall p, In p sp -> ChangedFrom ex p -> In p srcs).

Definition CodecError (e : Error) : Prop :=
  (exists s, e = ErrParseKey s) \/ (exists s, e = ErrResolveUDPAddr s).

Definition PeerValid `{WgLib} (p : WireguardPeer) : Prop :=
  ParseKey (PublicKey p) <> None /\
  (PresharedKey p <> "" -> ParseKey (PresharedKey p) <> None) /\
  (Endpoint p <> "" -> ResolveUDPAddr (Endpoint p) <> None).

Definition isRunning (l : LinkSpec) : bool :=
  match LinkPhase l with PhaseRunning => true | PhaseTearingDown => false end.

Definition KeepsKernel `{WgLib} {A} (m : M A) : Prop :=
  forall w w' r, m w = (w', r) -> kernelLinks w' = kernelLinks w.

Definition x_device : @Device TextWgLib :=
  {| DPrivateKey := textKey c1_privateKey; DPublicKey := textKey c1_privateKey;
     DListenPort := 51820; DFirewallMark := 0; DPeers := [] |}.

Definition x_privateKey : string := "UFBQUFBQUFBQUFBQUFBQUFBQUFBQUFBQUFBQUFBQUFA=".

Definition x_desired : WireguardSpec :=
  {| PrivateKey := x_privateKey; SpecPublicKey := ""; ListenPort := 0; FirewallMark := 7;
     Peers := [] |}.

Definition x_peer (c : Ascii.ascii) (ep : string) : WireguardPeer :=
  {| PublicKey := mkKey c; PresharedKey := ""; Endpoint := ep;
     PersistentKeepaliveInterval := 0; AllowedIPs := [] |}.

(** Peers [E] and [I] on the device; [I] with another endpoint and a new
    [M] wanted. *)
Definition x_existing : WireguardSpec :=
  {| PrivateKey := c1_privateKey; SpecPublicKey := ""; ListenPort := 51820; FirewallMark := 0;
     Peers := [x_peer "E" ""; x_peer "I" "10.0.0.2:51820"] |}.

Definition x_wanted : WireguardSpec :=
  {| PrivateKey := c1_privateKey; SpecPublicKey := ""; ListenPort := 51820; FirewallMark := 0;
     Peers := [x_peer "I" "10.0.0.3:51820"; x_peer "M" ""] |}.

Definition spec_wg0_new : LinkSpec :=
  mkSpec "wg0" true LinkKindWireguard 65534 true 1380 x_desired PhaseRunning.

Definition world_eth0 : @World TextWgLib := mkWorld [link_eth0] [] [].




(** * Theorems *)

(** ** Claim C5 *)

(** C5: [Encode] puts ListenPort in the patch if and only if the desired
    value differs from the existing one, and then with the desired value
    (0 included); the same holds for FirewallMark. *)
Theorem Encode_ListenPort_FirewallMark_only_if_changed `{WgLib}
    (spec existing : WireguardSpec) (cfg : Config) :
  Encode spec existing = Ok cfg ->
  (CListenPort cfg <> None <-> ListenPort existing <> ListenPort spec) /\
  (forall v, CListenPort cfg = Some v -> v = ListenPort spec) /\
  (CFirewallMark cfg <> None <-> FirewallMark existing <> FirewallMark spec) /\
  (forall v, CFirewallMark cfg = Some v -> v = FirewallMark spec).
Proof.
  unfold Encode, rbind.
  destruct (if String.eqb (PrivateKey existing) (PrivateKey spec) then Ok None
            else match parseKey (PrivateKey spec) with
                 | Ok k => Ok (Some k) | Err e => Err e end) as [pk|e];
    [|discriminate].
  destruct (mergePeers (Peers existing) (Peers spec)) as [ps|e]; [|discriminate].
  intros Hcfg; inversion Hcfg; subst; cbn.
  destruct (Z.eqb_spec (ListenPort existing) (ListenPort spec));
  destruct (Z.eqb_spec (FirewallMark existing) (FirewallMark spec));
  repeat split; intros; try congruence.
Qed.

(** Example B, through C5: the patch carries ListenPort = 0. *)
Lemma Encode_ListenPort_FirewallMark_only_if_changed_witness :
  Encode exampleB_desired exampleB_existing = Ok exampleB_config /\
  CListenPort exampleB_config = Some 0 /\
  ((CListenPort exampleB_config <> None <->
    ListenPort exampleB_existing <> ListenPort exampleB_desired) /\
   (forall v, CListenPort exampleB_config = Some v -> v = ListenPort exampleB_desired) /\
   (CFirewallMark exampleB_config <> None <->
    FirewallMark exampleB_existing <> FirewallMark exampleB_desired) /\
   (forall v, CFirewallMark exampleB_config = Some v -> v = FirewallMark exampleB_desired)).
Proof.
  assert (E : Encode exampleB_desired exampleB_existing = Ok exampleB_config)
    by reflexivity.
  split; [exact E|].
  split; [reflexivity|].
  exact (Encode_ListenPort_FirewallMark_only_if_changed _ _ _ E).
Defined.

(** ** Claim C9 *)

(** C9: [Decode] maps the i-th device peer to the i-th spec peer, an
    all-zero preshared key to the empty (absent) one and a nil endpoint to
    the empty one; [isStatus] selects whether the public key (status view)
    or the private key (config view) is filled in, the other being kept. *)
Theorem Decode_peers_and_local_key `{WgLib}
    (spec : WireguardSpec) (dev : Device) (isStatus : bool) :
  let s := Decode spec dev isStatus in
  length (Peers s) = length (DPeers dev) /\
  (forall i p, nth_error (DPeers dev) i = Some p ->
     exists q, nth_error (Peers s) i = Some q /\
       PublicKey q = KeyString (PPublicKey p) /\
       (PPresharedKey p = zeroKey -> PresharedKey q = "") /\
       (PPresharedKey p <> zeroKey -> PresharedKey q = KeyString (PPresharedKey p)) /\
       (PEndpoint p = None -> Endpoint q = "") /\
       (forall a, PEndpoint p = Some a -> Endpoint q = UDPAddrString a) /\
       PersistentKeepaliveInterval q = PPersistentKeepaliveInterval p) /\
  (isStatus = true ->
     SpecPublicKey s = KeyString (DPublicKey dev) /\ PrivateKey s = PrivateKey spec) /\
  (isStatus = false ->
     PrivateKey s = KeyString (DPrivateKey dev) /\ SpecPublicKey s = SpecPublicKey spec).
Proof.
  cbn zeta. split; [|split; [|split]].
  - cbn. apply length_map.
  - intros i p Hp. exists (decodePeer p). cbn.
    rewrite nth_error_map, Hp. split; [reflexivity|].
    unfold decodePeer; cbn.
    split; [reflexivity|].
    split; [intros ->; destruct (key_eqb zeroKey zeroKey) eqn:E;
            [reflexivity | exfalso; assert (zeroKey = zeroKey) as Z0 by reflexivity;
                           apply key_eqb_spec in Z0; congruence]|].
    split; [intros Hne; destruct (key_eqb (PPresharedKey p) zeroKey) eqn:E;
            [apply key_eqb_spec in E; contradiction | reflexivity]|].
    split; [intros ->; reflexivity|].
    split; [intros a ->; reflexivity|reflexivity].
  - intros ->. split; reflexivity.
  - intros ->. split; reflexivity.
Qed.

(** ** Call logs and frames of the monadic steps *)

Section StepLemmas.
Context `{WgLib}.

Lemma Steps_ret {A} P (a : A) : Steps P (ret a).
Proof. intros w w' r E. inversion E. exists []. rewrite app_nil_r. auto. Qed.

Lemma Steps_fail {A} P e : Steps P (@fail _ A e).
Proof. intros w w' r E. inversion E. exists []. rewrite app_nil_r. auto. Qed.

Lemma Steps_bind {A B} P (m : M A) (k : A -> M B) :
  Steps P m -> (forall a, Steps P (k a)) -> Steps P (bind m k).
Proof.
  intros Hm Hk w w' r E. unfold bind in E.
  destruct (m w) as [w1 [a|e]] eqn:E1.
  - destruct (Hm _ _ _ E1) as [cs1 [T1 F1]].
    destruct (Hk a _ _ _ E) as [cs2 [T2 F2]].
    exists (cs1 ++ cs2). rewrite T2, T1, app_assoc. split; [reflexivity|].
    apply Forall_app; auto.
  - inversion E; subst. eapply Hm; eauto.
Qed.

Lemma Steps_wrap {A} P msg name (m : M A) : Steps P m -> Steps P (wrap msg name m).
Proof.
  intros Hm w w' r E. unfold wrap in E.
  destruct (m w) as [w1 [a|e]] eqn:E1; inversion E; subst; eapply Hm; eauto.
Qed.

Lemma Steps_weaken {A} (P Q : Call -> Prop) (m : M A) :
  (forall c, P c -> Q c) -> Steps P m -> Steps Q m.
Proof.
  intros HPQ Hm w w' r E. destruct (Hm _ _ _ E) as [cs [T F]].
  exists cs. split; [exact T|]. eapply Forall_impl; eauto.
Qed.

Lemma Steps_call {A} P c (eff : World -> World * Result A) :
  P c -> (forall w, trace (fst (eff w)) = trace w) -> Steps P (call c eff).
Proof.
  intros Pc Heff w w' r E. unfold call in E.
  destruct (fault (record_call c w) c).
  - inversion E; subst. exists [c]. auto.
  - exists [c]. split; [|auto].
    specialize (Heff (record_call c w)). rewrite E in Heff. cbn in Heff. exact Heff.
Qed.

Lemma KeepsKeys_ret {A} (a : A) : KeepsKeys (ret a).
Proof. intros w w' r E. inversion E. auto. Qed.

Lemma KeepsKeys_fail {A} e : KeepsKeys (@fail _ A e).
Proof. intros w w' r E. inversion E. auto. Qed.

Lemma KeepsKeys_bind {A B} (m : M A) (k : A -> M B) :
  KeepsKeys m -> (forall a, KeepsKeys (k a)) -> KeepsKeys (bind m k).
Proof.
  intros Hm Hk w w' r E. unfold bind in E.
  destruct (m w) as [w1 [a|e]] eqn:E1.
  - destruct (Hm _ _ _ E1) as [K1 S1]. destruct (Hk a _ _ _ E) as [K2 S2].
    rewrite K2, S2. auto.
  - inversion E; subst. eapply Hm; eauto.
Qed.

Lemma KeepsKeys_wrap {A} msg name (m : M A) : KeepsKeys m -> KeepsKeys (wrap msg name m).
Proof.
  intros Hm w w' r E. unfold wrap in E.
  destruct (m w) as [w1 [a|e]] eqn:E1; inversion E; subst; eapply Hm; eauto.
Qed.

Lemma KeepsKeys_call {A} c (eff : World -> World * Result A) :
  (forall w, map linkKey (kernelLinks (fst (eff w))) = map linkKey (kernelLinks w) /\
             map linkKey (snapshot (fst (eff w))) = map linkKey (snapshot w)) ->
  KeepsKeys (call c eff).
Proof.
  intros Heff w w' r E. unfold call in E.
  destruct (fault (record_call c w) c).
  - inversion E; subst. auto.
  - specialize (Heff (record_call c w)). rewrite E in Heff. exact Heff.
Qed.

End StepLemmas.

Section PrimitiveLemmas.
Context `{WgLib}.

Lemma map_linkKey_map (g : KernelLink -> KernelLink) (ls : list KernelLink) :
  (forall l, linkKey (g l) = linkKey l) -> map linkKey (map g ls) = map linkKey ls.
Proof.
  intros Hg. induction ls as [|l ls IH]; cbn; [reflexivity|]. rewrite Hg, IH. reflexivity.
Qed.


Lemma modifyLink_keys index f w :
  (forall l, linkKey (f l) = linkKey l) ->
  map linkKey (kernelLinks (fst (modifyLink index f w))) = map linkKey (kernelLinks w) /\
  map linkKey (snapshot (fst (modifyLink index f w))) = map linkKey (snapshot w).
Proof.
  intros Hf. unfold modifyLink. destruct (find _ _); cbn; [|auto].
  split; [|reflexivity]. apply map_linkKey_map.
  intros l. destruct (Index l =? index); [apply Hf|reflexivity].
Qed.

Lemma openDevice_fields name w :
  trace (openDevice name w) = trace w /\ kernelLinks (openDevice name w) = kernelLinks w /\
  snapshot (openDevice name w) = snapshot w /\ nextIndex (openDevice name w) = nextIndex w.
Proof.
  unfold openDevice. destruct (lookup_device _ _); [destruct (_ =? 0)|];
    repeat split; reflexivity.
Qed.

Lemma setFlagsEffect_fields index flags change w :
  trace (fst (setFlagsEffect index flags change w)) = trace w /\
  kernelLinks (fst (setFlagsEffect index flags change w)) =
    kernelLinks (fst (modifyLink index (setFlags flags change) w)) /\
  snapshot (fst (setFlagsEffect index flags change w)) = snapshot w /\
  nextIndex (fst (setFlagsEffect index flags change w)) = nextIndex w.
Proof.
  unfold setFlagsEffect. destruct (find _ _) as [l|] eqn:Ef.
  - assert (F : trace (fst (modifyLink index (setFlags flags change) w)) = trace w /\
                snapshot (fst (modifyLink index (setFlags flags change) w)) = snapshot w /\
                nextIndex (fst (modifyLink index (setFlags flags change) w)) = nextIndex w)
      by (unfold modifyLink; rewrite Ef; repeat split; reflexivity).
    destruct F as (F1 & F2 & F3).
    destruct (_ && _); cbn [fst];
      [destruct (openDevice_fields (Name l) (fst (modifyLink index (setFlags flags change) w)))
         as (G1 & G2 & G3 & G4); rewrite G1, G2, G3, G4|]; auto.
  - unfold modifyLink. rewrite Ef. repeat split; reflexivity.
Qed.

Lemma linkSetFlags_steps index flags change :
  Steps (fun c => c = CallLinkSetFlags index flags change) (linkSetFlags index flags change).
Proof.
  apply Steps_call; [reflexivity|]. intros w. apply setFlagsEffect_fields.
Qed.

Lemma linkSetFlags_keeps index flags change : KeepsKeys (linkSetFlags index flags change).
Proof.
  apply KeepsKeys_call. intros w.
  destruct (setFlagsEffect_fields index flags change w) as (_ & -> & -> & _).
  destruct (modifyLink_keys index (setFlags flags change) w) as [-> _]; [reflexivity|]. auto.
Qed.


Lemma linkSetMTU_keeps index mtu : KeepsKeys (linkSetMTU index mtu).
Proof. apply KeepsKeys_call. intros w. apply modifyLink_keys. reflexivity. Qed.

Lemma wgDevice_steps name : Steps (fun c => c = CallWgDevice name) (wgDevice name).
Proof.
  apply Steps_call; [reflexivity|]. intros w. cbn. destruct (lookup_device _ _); reflexivity.
Qed.

Lemma wgDevice_keeps name : KeepsKeys (wgDevice name).
Proof. apply KeepsKeys_call. intros w. cbn. destruct (lookup_device _ _); auto. Qed.

Lemma wgConfigureDevice_steps name config :
  Steps (fun c => c = CallWgConfigureDevice name) (wgConfigureDevice name config).
Proof.
  apply Steps_call; [reflexivity|]. intros w. cbn. destruct (lookup_device _ _); reflexivity.
Qed.

Lemma wgConfigureDevice_keeps name config : KeepsKeys (wgConfigureDevice name config).
Proof. apply KeepsKeys_call. intros w. cbn. destruct (lookup_device _ _); auto. Qed.

Lemma bumpRefresh_steps : Steps (fun c => c = CallBumpRefresh) bumpRefresh.
Proof. apply Steps_call; reflexivity. Qed.

Lemma bumpRefresh_keeps : KeepsKeys bumpRefresh.
Proof. apply KeepsKeys_call. intros w. auto. Qed.

Lemma setFirstMTU_keys name mtu ls :
  map linkKey (setFirstMTU name mtu ls) = map linkKey ls.
Proof.
  induction ls as [|l ls IH]; cbn; [reflexivity|].
  destruct (String.eqb (Name l) name); cbn; [reflexivity|]. rewrite IH. reflexivity.
Qed.


Lemma updateLinkMTU_keeps name mtu : KeepsKeys (updateLinkMTU name mtu).
Proof. intros w w' r E. inversion E; subst. cbn. rewrite setFirstMTU_keys. auto. Qed.

(** The wireguard step makes only device calls and the refresh bump. *)
Lemma syncWireguard_steps wg link :
  Steps (fun c => match c with
                  | CallWgDevice _ | CallWgConfigureDevice _ | CallBumpRefresh => True
                  | _ => False end) (syncWireguard wg link).
Proof.
  unfold syncWireguard. destruct (negb wg); [apply Steps_fail|].
  apply Steps_bind.
  - apply Steps_wrap. eapply Steps_weaken; [|apply wgDevice_steps]. intros c ->. exact I.
  - intros dev. destruct (spec_Equal _ _); [apply Steps_ret|].
    destruct (Encode _ _); [|apply Steps_fail].
    apply Steps_bind.
    + apply Steps_wrap. eapply Steps_weaken; [|apply wgConfigureDevice_steps].
      intros c ->. exact I.
    + intros _ w w' r E. destruct (bumpRefresh w) as [w1 [u|e]] eqn:E1;
        inversion E; subst; (eapply Steps_weaken; [|apply bumpRefresh_steps|]);
        [intros c ->; exact I | exact E1 | intros c ->; exact I | exact E1].
Qed.

Lemma syncWireguard_keeps wg link : KeepsKeys (syncWireguard wg link).
Proof.
  unfold syncWireguard. destruct (negb wg); [apply KeepsKeys_fail|].
  apply KeepsKeys_bind; [apply KeepsKeys_wrap, wgDevice_keeps|].
  intros dev. destruct (spec_Equal _ _); [apply KeepsKeys_ret|].
  destruct (Encode _ _); [|apply KeepsKeys_fail].
  apply KeepsKeys_bind; [apply KeepsKeys_wrap, wgConfigureDevice_keeps|].
  intros _ w w' r E. destruct (bumpRefresh w) as [w1 [u|e]] eqn:E1;
    inversion E; subst; eapply bumpRefresh_keeps; exact E1.
Qed.


Lemma syncUp_keeps link e : KeepsKeys (syncUp link e).
Proof.
  unfold syncUp. destruct (Bool.eqb _ _); [apply KeepsKeys_ret|].
  apply KeepsKeys_wrap, linkSetFlags_keeps.
Qed.


Lemma syncMTU_keeps link e : KeepsKeys (syncMTU link e).
Proof.
  unfold syncMTU. destruct (_ && _); [|apply KeepsKeys_ret].
  apply KeepsKeys_bind; [apply KeepsKeys_wrap, linkSetMTU_keeps|].
  intros; apply updateLinkMTU_keeps.
Qed.


Lemma syncSettings_keeps wg link e : KeepsKeys (syncSettings wg link e).
Proof.
  unfold syncSettings. apply KeepsKeys_bind.
  - destruct (String.eqb _ _); [apply syncWireguard_keeps|apply KeepsKeys_ret].
  - intros _. apply KeepsKeys_bind; [apply syncUp_keeps|]. intros _. apply syncMTU_keeps.
Qed.




End PrimitiveLemmas.

(** Unfold the monad and the kernel and store calls of the teardown path. *)
Ltac unfold_calls H :=
  unfold bind, ret, fail, wrap, getLinks, refreshLinks, linkList, linkDelete,
    removeFinalizer in H; unfold call in H; cbn in H.

Lemma find_index_in `{WgLib} (e : KernelLink) (ls : list KernelLink) :
  In e ls -> exists l, find (fun l => Index l =? Index e) ls = Some l.
Proof.
  intros Hin. destruct (find (fun l => Index l =? Index e) ls) as [l|] eqn:F; [eauto|].
  pose proof (find_none _ _ F e Hin) as Hf. cbn in Hf. rewrite Z.eqb_refl in Hf. discriminate.
Qed.

Lemma removed_finalizer (name : string) (fs : list string) :
  ~ In name (filter (fun n => negb (String.eqb n name)) fs).
Proof.
  rewrite filter_In. intros [_ Hn]. rewrite String.eqb_refl in Hn. discriminate.
Qed.

(** ** Claim C10 *)

(** C10: tearing down a non-logical (physical) spec makes no kernel call
    and leaves the kernel, the wireguard devices and the slice unchanged; its
    only call removes the finalizer, and the sync returns no error when that
    removal succeeds. *)
Theorem syncLink_teardown_physical_only_removes_finalizer `{WgLib}
    (wg : bool) (link : LinkSpec) (w w' : World) (r : Result unit) :
  LinkPhase link = PhaseTearingDown ->
  Logical link = false ->
  syncLink wg link w = (w', r) ->
  kernelLinks w' = kernelLinks w /\ nextIndex w' = nextIndex w /\
  devices w' = devices w /\ snapshot w' = snapshot w /\
  refreshCounter w' = refreshCounter w /\
  trace w' = trace w ++ [CallRemoveFinalizer (SpecName link)] /\
  (fault w (CallRemoveFinalizer (SpecName link)) = false ->
   r = Ok tt /\ ~ In (SpecName link) (finalizers w')).
Proof.
  intros Hph Hlog E. unfold syncLink in E. rewrite Hph in E.
  unfold syncTearingDown in E. rewrite Hlog in E.
  unfold_calls E. destruct (fault w (CallRemoveFinalizer (SpecName link))) eqn:F;
    inversion E; subst; cbn.
  - repeat split; try reflexivity; intros; congruence.
  - repeat split; try reflexivity. apply removed_finalizer.
Qed.

Lemma syncLink_teardown_physical_only_removes_finalizer_witness :
  let '(w', r) := syncLink true spec_eth0_teardown world_eth0_bond0 in
  LinkPhase spec_eth0_teardown = PhaseTearingDown /\
  Logical spec_eth0_teardown = false /\
  (kernelLinks w' = kernelLinks world_eth0_bond0 /\ nextIndex w' = nextIndex world_eth0_bond0 /\
   devices w' = devices world_eth0_bond0 /\ snapshot w' = snapshot world_eth0_bond0 /\
   refreshCounter w' = refreshCounter world_eth0_bond0 /\
   trace w' = trace world_eth0_bond0 ++ [CallRemoveFinalizer (SpecName spec_eth0_teardown)] /\
   (fault world_eth0_bond0 (CallRemoveFinalizer (SpecName spec_eth0_teardown)) = false ->
    r = Ok tt /\ ~ In (SpecName spec_eth0_teardown) (finalizers w'))).
Proof.
  destruct (syncLink true spec_eth0_teardown world_eth0_bond0) as [w' r] eqn:E.
  split; [reflexivity|]. split; [reflexivity|].
  exact (syncLink_teardown_physical_only_removes_finalizer
           true spec_eth0_teardown world_eth0_bond0 w' r eq_refl eq_refl E).
Defined.

(** ** Claim C7 *)

(** C7: tearing down a spec whose kernel link is not in the slice (or a
    non-logical spec) only removes the finalizer and returns no error; for a
    logical spec whose link is there, the link is deleted and the slice
    re-listed before the finalizer is removed. *)
Theorem syncLink_teardown_removes_finalizer `{WgLib}
    (wg : bool) (link : LinkSpec) (w w' : World) (r : Result unit) :
  LinkPhase link = PhaseTearingDown ->
  fault w (CallRemoveFinalizer (SpecName link)) = false ->
  syncLink wg link w = (w', r) ->
  ((Logical link = false \/ FindLink (snapshot w) (SpecName link) = None) ->
     r = Ok tt /\ trace w' = trace w ++ [CallRemoveFinalizer (SpecName link)] /\
     kernelLinks w' = kernelLinks w /\ snapshot w' = snapshot w /\
     ~ In (SpecName link) (finalizers w')) /\
  (forall e, Logical link = true -> FindLink (snapshot w) (SpecName link) = Some e ->
     In e (kernelLinks w) ->
     fault w (CallLinkDelete (Index e)) = false -> fault w CallLinkList = false ->
     r = Ok tt /\
     trace w' = trace w ++ [CallLinkDelete (Index e); CallLinkList;
                            CallRemoveFinalizer (SpecName link)] /\
     kernelLinks w' = filter (fun l => negb (Index l =? Index e)) (kernelLinks w) /\
     snapshot w' = kernelLinks w' /\
     ~ In (SpecName link) (finalizers w')).
Proof.
  intros Hph Hrm E. unfold syncLink in E. rewrite Hph in E. unfold syncTearingDown in E.
  split.
  - intros Habs.
    assert (E' : (if Logical link then
                    bind getLinks (fun links =>
                      match FindLink links (SpecName link) with
                      | Some existing =>
                          wrap "error deleting link" (SpecName link) (linkDelete (Index existing)) ;;;
                          refreshLinks ;;; ret tt
                      | None => ret tt
                      end)
                  else ret tt) w = (w, Ok tt)).
    { destruct Habs as [Hl|Hf]; rewrite ?Hl; [reflexivity|].
      destruct (Logical link); [|reflexivity].
      cbn. rewrite Hf. reflexivity. }
    unfold bind at 1 in E. rewrite E' in E. unfold_calls E. rewrite Hrm in E.
    inversion E; subst; cbn.
    repeat split; try reflexivity. apply removed_finalizer.
  - intros e Hl Hf Hin Hdel Hlist. rewrite Hl in E. unfold_calls E. rewrite Hf in E.
    cbn in E. rewrite Hdel in E.
    destruct (find_index_in e (kernelLinks w) Hin) as [l Hfind].
    rewrite Hfind in E. cbn in E. rewrite Hlist in E. cbn in E. rewrite Hrm in E. cbn in E.
    inversion E; subst; cbn.
    repeat split; try reflexivity; [rewrite <- !app_assoc; reflexivity | apply removed_finalizer].
Qed.

Lemma syncLink_teardown_removes_finalizer_witness :
  let '(w', r) := syncLink true spec_wg1_teardown world_eth0_bond0 in
  LinkPhase spec_wg1_teardown = PhaseTearingDown /\
  fault world_eth0_bond0 (CallRemoveFinalizer (SpecName spec_wg1_teardown)) = false /\
  FindLink (snapshot world_eth0_bond0) (SpecName spec_wg1_teardown) = None /\
  r = Ok tt /\ trace w' = [CallRemoveFinalizer "wg1"].
Proof.
  destruct (syncLink true spec_wg1_teardown world_eth0_bond0) as [w' r] eqn:E.
  destruct (syncLink_teardown_removes_finalizer
              true spec_wg1_teardown world_eth0_bond0 w' r eq_refl eq_refl E)
    as [Habs _].
  destruct (Habs (or_intror eq_refl)) as [Hr [Ht _]].
  repeat split; try reflexivity; assumption.
Defined.

(** ** Claim C4 *)

Lemma syncAll_SyncsAll `{WgLib} (wg : bool) (items : list LinkSpec) :
  forall (acc : list Error) (w w2 : World) (errs : list Error),
  syncAll wg items acc w = (w2, errs) ->
  exists errs', SyncsAll wg items w w2 errs' /\ errs = acc ++ errs'.
Proof.
  induction items as [|link rest IH]; intros acc w w2 errs E; cbn in E.
  - inversion E; subst. exists []. rewrite app_nil_r. split; [constructor|reflexivity].
  - destruct (syncLink wg link w) as [w1 [[]|e]] eqn:E1.
    + destruct (IH _ _ _ _ E) as [errs' [HS ->]].
      exists errs'. split; [econstructor; eauto|reflexivity].
    + destruct (IH _ _ _ _ E) as [errs' [HS ->]].
      exists (e :: errs'). split; [eapply SyncsAll_err; eauto|].
      rewrite <- app_assoc. reflexivity.
Qed.

(** C4: once the specs are listed, the finalizers added and the links
    listed, the cycle syncs every item in order, each from the state the
    previous one left, whether or not earlier items failed; the errors of
    all items are collected, and only then the cycle returns them together,
    or, when there are none, calls [ResetRestartBackoff]. *)
Theorem runCycle_syncs_every_item `{WgLib} (wg : bool) (w w1 w' : World)
    (items : list LinkSpec) (r : Result unit) :
  runPrelude w = (w1, Ok items) ->
  runCycle wg w = (w', r) ->
  exists w2 errs, SyncsAll wg items w1 w2 errs /\
    ((errs = [] /\ r = Ok tt /\ trace w' = trace w2 ++ [CallResetRestartBackoff]) \/
     (errs <> [] /\ r = Err (ErrMulti errs) /\ w' = w2)).
Proof.
  intros Hpre E. unfold runCycle, bind in E. rewrite Hpre in E.
  destruct (syncAll wg items [] w1) as [w2 errs] eqn:E2.
  destruct (syncAll_SyncsAll wg items [] w1 w2 errs E2) as [errs' [HS Herr]].
  cbn in Herr. subst errs'.
  exists w2, errs. split; [exact HS|].
  destruct errs as [|e errs]; inversion E; subst.
  - left. auto.
  - right. split; [discriminate|auto].
Qed.

Lemma runCycle_syncs_every_item_witness :
  let '(w1, pre) := runPrelude world_cycle in
  let '(w', r) := runCycle false world_cycle in
  pre = Ok (specs world_cycle) /\
  exists w2 errs, SyncsAll false (specs world_cycle) w1 w2 errs /\
    ((errs = [] /\ r = Ok tt /\ trace w' = trace w2 ++ [CallResetRestartBackoff]) \/
     (errs <> [] /\ r = Err (ErrMulti errs) /\ w' = w2)).
Proof.
  destruct (runPrelude world_cycle) as [w1 pre] eqn:E1.
  destruct (runCycle false world_cycle) as [w' r] eqn:E2.
  assert (Hpre : pre = Ok (specs world_cycle)).
  { vm_compute in E1. inversion E1. reflexivity. }
  split; [exact Hpre|]. subst pre.
  exact (runCycle_syncs_every_item false world_cycle w1 w' (specs world_cycle) r E1 E2).
Defined.

(** ** Claim C2 *)

Section ReplaceLemmas.
Context `{WgLib}.







Lemma find_app_single {A} (f : A -> bool) (ls : list A) (x : A) :
  find f ls = None -> f x = true -> find f (ls ++ [x]) = Some x.
Proof.
  intros Hn Hx. induction ls as [|y ys IH]; cbn in *.
  - rewrite Hx. reflexivity.
  - destruct (f y); [discriminate|]. apply IH. exact Hn.
Qed.

(** Creating the wireguard link: the creation call, then (when it succeeds)
    the re-listing; the link resolved is the new one, at [nextIndex]. *)
Lemma createLink_wireguard (link : LinkSpec) (w w' : World) (r : Result (option KernelLink)) :
  Logical link = true -> Kind link = LinkKindWireguard ->
  createLink link w = (w', r) ->
  exists rest', trace w' = trace w ++
                  CallLinkNew (SpecName link) (uint16 (SpecType link)) (Kind link) :: rest' /\
    (rest' = [] \/ rest' = [CallLinkList]) /\
    (forall e', r = Ok (Some e') -> Index e' = nextIndex w) /\
    r <> Ok None.
Proof.
  intros Hl Hk E. unfold createLink in E. rewrite Hl, Hk in E. rewrite Hk. cbn in E.
  unfold bind, wrap, linkNew, call in E. cbn in E.
  destruct (fault w _) eqn:Ff.
  { inversion E; subst. exists []. split; [reflexivity|]. split; [auto|].
    split; [intros; discriminate|discriminate]. }
  destruct (find (fun l : KernelLink => String.eqb (Name l) (SpecName link)) (kernelLinks w))
    as [x|] eqn:Fx.
  { inversion E; subst. exists []. split; [reflexivity|]. split; [auto|].
    split; [intros; discriminate|discriminate]. }
  unfold refreshLinks, linkList, call in E. cbn in E.
  destruct (fault w CallLinkList) eqn:Fl.
  { inversion E; subst. exists [CallLinkList]. cbn. rewrite <- app_assoc.
    split; [reflexivity|]. split; [auto|]. split; [intros; discriminate|discriminate]. }
  cbn in E.
  unfold FindLink in E.
  rewrite (find_app_single _ _ _ Fx) in E by (cbn; apply String.eqb_refl).
  cbn in E. inversion E; subst. exists [CallLinkList]. cbn. rewrite <- app_assoc.
  split; [reflexivity|]. split; [auto|].
  split; [intros e' He'; inversion He'; reflexivity|discriminate].
Qed.

Lemma createLink_not_wireguard (link : LinkSpec) (w : World) :
  Kind link <> LinkKindWireguard -> createLink link w = (w, Ok None).
Proof.
  intros Hk. unfold createLink. apply String.eqb_neq in Hk. rewrite Hk.
  destruct (Logical link); reflexivity.
Qed.

End ReplaceLemmas.




(** ** How [resolveLink] resolves, case by case *)

Section ResolveCases.
Context `{WgLib}.

Lemma resolveLink_absent (link : LinkSpec) (w : World) :
  FindLink (snapshot w) (SpecName link) = None -> resolveLink link w = createLink link w.
Proof. intros Hf. unfold resolveLink, bind, getLinks. cbv beta iota. rewrite Hf. reflexivity. Qed.

Lemma resolveLink_physical (link : LinkSpec) (w : World) (e : KernelLink) :
  FindLink (snapshot w) (SpecName link) = Some e -> Logical link = false ->
  resolveLink link w = (w, Ok (Some e)).
Proof.
  intros Hf Hl. unfold resolveLink, bind, getLinks. cbv beta iota. rewrite Hf, Hl.
  reflexivity.
Qed.

Lemma resolveLink_noinfo (link : LinkSpec) (w : World) (e : KernelLink) :
  FindLink (snapshot w) (SpecName link) = Some e -> Logical link = true -> Info e = None ->
  resolveLink link w = (w, Ok None).
Proof.
  intros Hf Hl Hi. unfold resolveLink, bind, getLinks. cbv beta iota. rewrite Hf, Hl, Hi.
  reflexivity.
Qed.

Lemma resolveLink_logical (link : LinkSpec) (w : World) (e : KernelLink) (kind : string) :
  FindLink (snapshot w) (SpecName link) = Some e -> Logical link = true -> Info e = Some kind ->
  resolveLink link w =
  if negb (LinkType e =? uint16 (SpecType link)) || negb (String.eqb kind (Kind link))
  then (wrap "error deleting link" (SpecName link) (linkDelete (Index e)) ;;; createLink link) w
  else (w, Ok (Some e)).
Proof.
  intros Hf Hl Hi. unfold resolveLink. unfold bind at 1. unfold getLinks.
  cbv beta iota. rewrite Hf, Hl, Hi.
  destruct (_ || _); reflexivity.
Qed.

(** Without a wireguard client the settings of a wireguard link fail at once. *)
Lemma syncSettings_no_client (link : LinkSpec) (e : KernelLink) (w : World) :
  Kind link = LinkKindWireguard ->
  syncSettings false link e w = (w, Err (ErrWireguardUnavailable (SpecName link))).
Proof.
  intros Hk. unfold syncSettings, bind. rewrite Hk, String.eqb_refl. reflexivity.
Qed.

End ResolveCases.

(** ** Claim C8 *)

(** C8 (as amended): without a wireguard client, the sync of a Running
    wireguard-kind spec ends in an error, except in two tolerated cases where
    it ends without error and without any call: the spec is logical and its
    kernel link carries no kind metadata, or the spec is not logical and no
    kernel link has its name. *)
Theorem syncLink_wireguard_without_client `{WgLib}
    (link : LinkSpec) (w w' : World) (r : Result unit) :
  LinkPhase link = PhaseRunning -> Kind link = LinkKindWireguard ->
  syncLink false link w = (w', r) ->
  (r = Ok tt <->
   ((Logical link = true /\
     exists e, FindLink (snapshot w) (SpecName link) = Some e /\ Info e = None) \/
    (Logical link = false /\ FindLink (snapshot w) (SpecName link) = None))) /\
  (r = Ok tt -> trace w' = trace w).
Proof.
  intros Hph Hk E. unfold syncLink in E. rewrite Hph in E. unfold bind at 1 in E.
  (* after a creation attempt, the sync cannot succeed *)
  assert (Hcreate : forall w1 w2 rc w3 r3, Logical link = true -> createLink link w1 = (w2, rc) ->
            match rc with
            | Ok a => match a with
                      | Some e' => syncSettings false link e'
                      | None => ret tt
                      end w2
            | Err er => (w2, Err er)
            end = (w3, r3) -> r3 <> Ok tt).
  { intros w1 w2 rc w3 r3 Hl Ec E3.
    destruct (createLink_wireguard link w1 w2 rc Hl Hk Ec) as [rest' [_ [_ [_ Hnone]]]].
    destruct rc as [[e'|]|er].
    - rewrite (syncSettings_no_client link e' w2 Hk) in E3. inversion E3; discriminate.
    - exfalso. apply Hnone. reflexivity.
    - inversion E3; discriminate. }
  destruct (FindLink (snapshot w) (SpecName link)) as [e|] eqn:Hf.
  - destruct (Logical link) eqn:Hl.
    + destruct (Info e) as [kind|] eqn:Hi.
      * rewrite (resolveLink_logical link w e kind Hf Hl Hi) in E.
        assert (Hr : r <> Ok tt).
        { destruct (_ || _).
          - unfold bind at 1, wrap at 1 in E.
            destruct (linkDelete (Index e) w) as [wd [u|er]].
            + destruct (createLink link wd) as [w2 rc] eqn:Ec.
              exact (Hcreate wd w2 rc w' r eq_refl Ec E).
            + inversion E; discriminate.
          - rewrite (syncSettings_no_client link e w Hk) in E. inversion E; discriminate. }
        split; [split; [intros; contradiction
                       | intros [[_ [e0 [He0 Hi0]]]|[Hc _]]; [|discriminate];
                         inversion He0; subst; congruence]
               | intros; contradiction].
      * rewrite (resolveLink_noinfo link w e Hf Hl Hi) in E. inversion E; subst.
        split; [split; [intros _; left; eauto | reflexivity] | reflexivity].
    + rewrite (resolveLink_physical link w e Hf Hl) in E.
      rewrite (syncSettings_no_client link e w Hk) in E. inversion E; subst.
      split; [split; [discriminate | intros [[Hc _]|[_ Hc]]; discriminate] | discriminate].
  - rewrite (resolveLink_absent link w Hf) in E.
    destruct (Logical link) eqn:Hl.
    + destruct (createLink link w) as [w2 rc] eqn:Ec.
      assert (Hr : r <> Ok tt) by exact (Hcreate w w2 rc w' r eq_refl Ec E).
      split; [split; [intros; contradiction
                     | intros [[_ [e0 [He0 _]]]|[Hc _]]; discriminate]
             | intros; contradiction].
    + unfold createLink in E. rewrite Hl in E. inversion E; subst.
      split; [split; [intros _; right; auto | reflexivity] | reflexivity].
Qed.

Lemma syncLink_wireguard_without_client_witness :
  let '(w', r) := syncLink false spec_wg0_running world_wg0_noinfo in
  LinkPhase spec_wg0_running = PhaseRunning /\
  Kind spec_wg0_running = LinkKindWireguard /\
  ((r = Ok tt <->
    ((Logical spec_wg0_running = true /\
      exists e, FindLink (snapshot world_wg0_noinfo) (SpecName spec_wg0_running) = Some e /\
                Info e = None) \/
     (Logical spec_wg0_running = false /\
      FindLink (snapshot world_wg0_noinfo) (SpecName spec_wg0_running) = None))) /\
   (r = Ok tt -> trace w' = trace world_wg0_noinfo)).
Proof.
  destruct (syncLink false spec_wg0_running world_wg0_noinfo) as [w' r] eqn:E.
  split; [reflexivity|]. split; [reflexivity|].
  exact (syncLink_wireguard_without_client spec_wg0_running world_wg0_noinfo w' r
           eq_refl eq_refl E).
Defined.

(** C8 as stated fails: without a wireguard client, a logical wireguard spec
    whose kernel link has no kind metadata syncs without error. *)
Lemma syncLink_wireguard_always_fails_counterexample :
  ~ (forall (link : LinkSpec) (w w' : @World TextWgLib) (r : Result unit),
       LinkPhase link = PhaseRunning -> Kind link = LinkKindWireguard ->
       syncLink false link w = (w', r) -> r <> Ok tt).
Proof.
  intros Hall.
  apply (Hall spec_wg0_running world_wg0_noinfo
              (fst (syncLink false spec_wg0_running world_wg0_noinfo))
              (snd (syncLink false spec_wg0_running world_wg0_noinfo)) eq_refl eq_refl).
  - reflexivity.
  - vm_compute. reflexivity.
Qed.

(** ** The slice after a sync *)

Section SnapshotLemmas.
Context `{WgLib}.

Lemma bind_ok {A B} (m : M A) (k : A -> M B) (w w' : World) (b : B) :
  bind m k w = (w', Ok b) -> exists w1 a, m w = (w1, Ok a) /\ k a w1 = (w', Ok b).
Proof.
  unfold bind. destruct (m w) as [w1 [a|e]]; intros E; [eauto | discriminate].
Qed.

Lemma wrap_ok {A} msg name (m : M A) (w w' : World) (a : A) :
  wrap msg name m w = (w', Ok a) -> m w = (w', Ok a).
Proof. unfold wrap. destruct (m w) as [w1 [x|e]]; intros E; [exact E | discriminate]. Qed.

Lemma Reflects_keep {A} (m : M A) (w w' : World) (r : Result A) :
  KeepsKeys m -> Reflects w -> m w = (w', r) -> Reflects w'.
Proof.
  unfold Reflects. intros Hm HR E. destruct (Hm w w' r E) as [Hk Hs].
  rewrite Hk, Hs. exact HR.
Qed.

Lemma removeFinalizer_keeps name : KeepsKeys (removeFinalizer name).
Proof. apply KeepsKeys_call. intros w. cbn. auto. Qed.

Lemma refreshLinks_ok_reflects (w w' : World) (ls : list KernelLink) :
  refreshLinks w = (w', Ok ls) -> Reflects w'.
Proof.
  unfold refreshLinks, linkList, call. cbn.
  destruct (fault w CallLinkList); intros E; inversion E; subst; reflexivity.
Qed.

(** A wireguard creation that ends without error has re-listed the slice. *)
Lemma createLink_ok_reflects (link : LinkSpec) (w w' : World) (o : option KernelLink) :
  Logical link = true -> Kind link = LinkKindWireguard ->
  createLink link w = (w', Ok o) -> Reflects w'.
Proof.
  intros Hl Hk E. unfold createLink in E. rewrite Hl, Hk in E. cbn in E.
  apply bind_ok in E. destruct E as [w1 [u [_ E]]].
  apply bind_ok in E. destruct E as [w2 [ls [Er E]]].
  destruct (FindLink ls _); inversion E; subst.
  eapply refreshLinks_ok_reflects; eauto.
Qed.

Lemma linkDelete_ok_facts (index : Z) (w w' : World) (u : unit) :
  linkDelete index w = (w', Ok u) ->
  trace w' = trace w ++ [CallLinkDelete index] /\ snapshot w' = snapshot w /\
  ~ In index (map Index (kernelLinks w')).
Proof.
  unfold linkDelete, call. cbn. destruct (fault w (CallLinkDelete index)); [discriminate|].
  destruct (find _ _) as [l|]; intros E; inversion E; subst; cbn.
  split; [reflexivity|]. split; [reflexivity|].
  rewrite in_map_iff. intros [l' [Hi Hin]]. apply filter_In in Hin as [_ Hn].
  rewrite Hi, Z.eqb_refl in Hn. discriminate.
Qed.

(** Whatever follows a wireguard creation keeps the slice current. *)
Lemma after_create_reflects (wg : bool) (link : LinkSpec) (w1 w2 w' : World)
    (rc : Result (option KernelLink)) :
  Logical link = true -> Kind link = LinkKindWireguard ->
  createLink link w1 = (w2, rc) ->
  match rc with
  | Ok a => match a with
            | Some e' => syncSettings wg link e'
            | None => ret tt
            end w2
  | Err er => (w2, Err er)
  end = (w', Ok tt) -> Reflects w'.
Proof.
  intros Hl Hk Ec E.
  destruct rc as [[e'|]|er].
  - eapply Reflects_keep; [apply syncSettings_keeps | | exact E].
    eapply createLink_ok_reflects; eauto.
  - inversion E; subst. eapply createLink_ok_reflects; eauto.
  - discriminate.
Qed.

End SnapshotLemmas.

(** ** The slice across a per-item sync *)

(** If the slice lists exactly the kernel's links (by index and name) before
    a per-item sync that ends without error, it still does after it, with
    one exception: a Running logical spec of a non-wireguard kind whose
    kernel link had the wrong kind or type; that sync makes just the delete
    call and does not re-list, so the slice keeps the deleted link while the
    kernel no longer has it. *)
Theorem syncLink_keeps_snapshot_current `{WgLib} (wg : bool) (link : LinkSpec) (w w' : World) :
  Reflects w -> syncLink wg link w = (w', Ok tt) ->
  Reflects w' \/
  (LinkPhase link = PhaseRunning /\ Logical link = true /\ Kind link <> LinkKindWireguard /\
   exists e, FindLink (snapshot w) (SpecName link) = Some e /\
     trace w' = trace w ++ [CallLinkDelete (Index e)] /\
     snapshot w' = snapshot w /\
     ~ In (Index e) (map Index (kernelLinks w'))).
Proof.
  intros HR E. unfold syncLink in E. destruct (LinkPhase link) eqn:Hph.
  - (* Running *)
    unfold bind at 1 in E.
    destruct (FindLink (snapshot w) (SpecName link)) as [e|] eqn:Hf.
    + destruct (Logical link) eqn:Hl.
      * destruct (Info e) as [kind|] eqn:Hi.
        -- rewrite (resolveLink_logical link w e kind Hf Hl Hi) in E.
           destruct (_ || _).
           ++ unfold bind at 1, wrap at 1 in E.
              destruct (linkDelete (Index e) w) as [wd [u|er]] eqn:Ed; [|discriminate].
              destruct (String.eqb (Kind link) LinkKindWireguard) eqn:Hk.
              ** apply String.eqb_eq in Hk. left.
                 destruct (createLink link wd) as [w2 rc] eqn:Ec.
                 exact (after_create_reflects wg link wd w2 w' rc Hl Hk Ec E).
              ** apply String.eqb_neq in Hk.
                 rewrite (createLink_not_wireguard link wd Hk) in E.
                 inversion E; subst. right.
                 destruct (linkDelete_ok_facts (Index e) w w' u Ed) as [Ht [Hs Hn]].
                 repeat split; auto. exists e. auto.
           ++ left. eapply Reflects_keep; [apply syncSettings_keeps | exact HR | exact E].
        -- rewrite (resolveLink_noinfo link w e Hf Hl Hi) in E. inversion E; subst. left. exact HR.
      * rewrite (resolveLink_physical link w e Hf Hl) in E.
        left. eapply Reflects_keep; [apply syncSettings_keeps | exact HR | exact E].
    + rewrite (resolveLink_absent link w Hf) in E.
      destruct (Logical link) eqn:Hl.
      * destruct (String.eqb (Kind link) LinkKindWireguard) eqn:Hk.
        -- apply String.eqb_eq in Hk. left.
           destruct (createLink link w) as [w2 rc] eqn:Ec.
           exact (after_create_reflects wg link w w2 w' rc Hl Hk Ec E).
        -- apply String.eqb_neq in Hk.
           rewrite (createLink_not_wireguard link w Hk) in E. inversion E; subst. left. exact HR.
      * unfold createLink in E. rewrite Hl in E. inversion E; subst. left. exact HR.
  - (* TearingDown *)
    left. unfold syncTearingDown in E.
    apply bind_ok in E. destruct E as [w1 [a [E1 E2]]].
    eapply Reflects_keep; [apply KeepsKeys_wrap, removeFinalizer_keeps | | exact E2].
    destruct (Logical link).
    + apply bind_ok in E1. destruct E1 as [w2 [ls [Eg E1]]].
      unfold getLinks in Eg. injection Eg as Hw Hls. subst w2 ls.
      destruct (FindLink (snapshot w) (SpecName link)) as [e|].
      * apply bind_ok in E1. destruct E1 as [w3 [u [_ E1]]].
        apply bind_ok in E1. destruct E1 as [w4 [ls' [Er E1]]].
        inversion E1; subst. eapply refreshLinks_ok_reflects; eauto.
      * inversion E1; subst. exact HR.
    + inversion E1; subst. exact HR.
Qed.

Lemma syncLink_keeps_snapshot_current_witness :
  let '(w', r) := syncLink true spec_bond0_running world_eth0_bond0 in
  Reflects world_eth0_bond0 /\ r = Ok tt /\
  (Reflects w' \/
   (LinkPhase spec_bond0_running = PhaseRunning /\ Logical spec_bond0_running = true /\
    Kind spec_bond0_running <> LinkKindWireguard /\
    exists e, FindLink (snapshot world_eth0_bond0) (SpecName spec_bond0_running) = Some e /\
      trace w' = trace world_eth0_bond0 ++ [CallLinkDelete (Index e)] /\
      snapshot w' = snapshot world_eth0_bond0 /\
      ~ In (Index e) (map Index (kernelLinks w')))).
Proof.
  destruct (syncLink true spec_bond0_running world_eth0_bond0) as [w' r] eqn:E.
  assert (Hr : r = Ok tt).
  { vm_compute in E. inversion E. reflexivity. }
  subst r. split; [reflexivity|]. split; [reflexivity|].
  exact (syncLink_keeps_snapshot_current true spec_bond0_running world_eth0_bond0 w'
           eq_refl E).
Defined.

(** ** Claim C3 *)

(** C3: the code does not refresh the slice after every delete.  A Running
    bond spec whose kernel link [bond0] is a VLAN has that link deleted, and
    the sync returns without error and without re-listing the links (lines
    255-258), so the slice the next item of the cycle is synced against
    still lists [bond0] while the kernel no longer has it.  Tearing down the
    same logical link from the same state, by contrast, deletes it and then
    re-lists, leaving the slice in line with the kernel. *)
Theorem syncLink_mismatch_delete_leaves_stale_snapshot :
  Reflects world_eth0_bond0 /\
  (let '(w1, r1) := syncLink true spec_bond0_running world_eth0_bond0 in
   r1 = Ok tt /\
   trace w1 = [CallLinkDelete (Index link_bond0_vlan)] /\
   kernelLinks w1 = [link_eth0] /\
   snapshot w1 = snapshot world_eth0_bond0 /\
   In link_bond0_vlan (snapshot w1) /\
   ~ Reflects w1) /\
  (let '(w2, r2) := syncLink true spec_bond0_teardown world_eth0_bond0 in
   r2 = Ok tt /\
   trace w2 = [CallLinkDelete (Index link_bond0_vlan); CallLinkList;
               CallRemoveFinalizer "bond0"] /\
   kernelLinks w2 = [link_eth0] /\
   Reflects w2).
Proof.
  split; [reflexivity|]. split.
  - vm_compute. repeat split; [reflexivity ..| |].
    + right. left. reflexivity.
    + discriminate.
  - vm_compute. repeat split; reflexivity.
Qed.

(** ** The MTU step *)

Section MTULemmas.
Context `{WgLib}.

Definition NoMTUCall (c : Call) : Prop := ~ IsMTUCall c.

Lemma getLinks_steps P : Steps P getLinks.
Proof. intros w w' r E. inversion E; subst. exists []. rewrite app_nil_r. auto. Qed.

Lemma refreshLinks_steps P : P CallLinkList -> Steps P refreshLinks.
Proof.
  intros HP w w' r. unfold refreshLinks, linkList, call. cbn.
  destruct (fault w CallLinkList); intros E; inversion E; subst; exists [CallLinkList]; auto.
Qed.

Lemma linkNew_steps name type kind :
  Steps (fun c => c = CallLinkNew name type kind) (linkNew name type kind).
Proof.
  apply Steps_call; [reflexivity|]. intros w. cbn. destruct (FindLink _ _); reflexivity.
Qed.

Lemma linkDelete_steps index : Steps (fun c => c = CallLinkDelete index) (linkDelete index).
Proof.
  apply Steps_call; [reflexivity|]. intros w. cbn. destruct (find _ _); reflexivity.
Qed.

Lemma createLink_noMTU link : Steps NoMTUCall (createLink link).
Proof.
  unfold createLink. destruct (negb (Logical link)); [apply Steps_ret|].
  destruct (negb _); [apply Steps_ret|].
  apply Steps_bind.
  - apply Steps_wrap. eapply Steps_weaken; [|apply linkNew_steps].
    intros c -> Hc. exact Hc.
  - intros _. apply Steps_bind; [apply refreshLinks_steps; intros Hc; exact Hc|].
    intros ls. destruct (FindLink ls _); [apply Steps_ret | apply Steps_fail].
Qed.

Lemma resolveLink_noMTU link : Steps NoMTUCall (resolveLink link).
Proof.
  unfold resolveLink. apply Steps_bind; [apply getLinks_steps|].
  intros ls. destruct (FindLink ls _) as [e|]; [|apply createLink_noMTU].
  destruct (Logical link); [|apply Steps_ret].
  destruct (Info e); [|apply Steps_ret].
  destruct (_ || _); [|apply Steps_ret].
  apply Steps_bind; [|intros _; apply createLink_noMTU].
  apply Steps_wrap. eapply Steps_weaken; [|apply linkDelete_steps].
  intros c -> Hc. exact Hc.
Qed.

Lemma wgStep_noMTU wg link :
  Steps NoMTUCall (if String.eqb (Kind link) LinkKindWireguard then syncWireguard wg link
                   else ret tt).
Proof.
  destruct (String.eqb _ _); [|apply Steps_ret].
  eapply Steps_weaken; [|apply syncWireguard_steps].
  intros c Hc Hmtu. destruct c; cbn in *; tauto.
Qed.

Lemma syncUp_noMTU link e : Steps NoMTUCall (syncUp link e).
Proof.
  unfold syncUp. destruct (Bool.eqb _ _); [apply Steps_ret|].
  apply Steps_wrap. eapply Steps_weaken; [|apply linkSetFlags_steps].
  intros c -> Hc. exact Hc.
Qed.

Lemma syncSettings_noMTU wg link e : SpecMTU link = 0 -> Steps NoMTUCall (syncSettings wg link e).
Proof.
  intros Hm. unfold syncSettings. apply Steps_bind; [apply wgStep_noMTU|].
  intros _. apply Steps_bind; [apply syncUp_noMTU|].
  intros _. unfold syncMTU. rewrite Hm. cbn. apply Steps_ret.
Qed.

(** Two accounts of the calls after [w]: one with an MTU call, one without. *)
Lemma noMTU_contra (w w' : World) (cs cs' : list Call) (c : Call) :
  trace w' = trace w ++ cs -> trace w' = trace w ++ cs' -> Forall NoMTUCall cs' ->
  In c cs -> IsMTUCall c -> False.
Proof.
  intros T T' F Hin Hc. rewrite T in T'. apply app_inv_head in T'. subst cs'.
  rewrite Forall_forall in F. exact (F c Hin Hc).
Qed.

(** Where the resolved link came from: the slice after the resolution. *)
Lemma resolveLink_found (link : LinkSpec) (w w1 : World) (e : KernelLink) :
  resolveLink link w = (w1, Ok (Some e)) -> FindLink (snapshot w1) (SpecName link) = Some e.
Proof.
  assert (Hc : forall w0 w2, createLink link w0 = (w2, Ok (Some e)) ->
                 FindLink (snapshot w2) (SpecName link) = Some e).
  { intros w0 w2 E. unfold createLink in E.
    destruct (negb (Logical link)); [discriminate|].
    destruct (negb _); [discriminate|].
    apply bind_ok in E. destruct E as [w3 [u [_ E]]].
    apply bind_ok in E. destruct E as [w4 [ls [Er E]]].
    unfold refreshLinks, linkList, call in Er. cbn in Er.
    destruct (fault w3 CallLinkList); inversion Er; subst.
    destruct (FindLink (kernelLinks w3) (SpecName link)) eqn:Hf; inversion E; subst.
    exact Hf. }
  intros E. destruct (FindLink (snapshot w) (SpecName link)) as [e0|] eqn:Hf.
  - destruct (Logical link) eqn:Hl.
    + destruct (Info e0) as [kind|] eqn:Hi.
      * rewrite (resolveLink_logical link w e0 kind Hf Hl Hi) in E.
        destruct (_ || _).
        -- apply bind_ok in E. destruct E as [w2 [u [_ E]]]. eapply Hc; eauto.
        -- inversion E; subst. exact Hf.
      * rewrite (resolveLink_noinfo link w e0 Hf Hl Hi) in E. discriminate.
    + rewrite (resolveLink_physical link w e0 Hf Hl) in E. inversion E; subst. exact Hf.
  - rewrite (resolveLink_absent link w Hf) in E. eapply Hc; eauto.
Qed.

Lemma FindLink_keys (l1 l2 : list KernelLink) (name : string) :
  map linkKey l1 = map linkKey l2 -> FindLink l1 name <> None -> FindLink l2 name <> None.
Proof.
  revert l2. induction l1 as [|a l1 IH]; intros [|b l2] Hk Hf; cbn in *;
    try discriminate; try contradiction.
  assert (Hab : linkKey a = linkKey b) by congruence.
  assert (Hk' : map linkKey l1 = map linkKey l2) by congruence.
  unfold linkKey in Hab. assert (Hn : Name a = Name b) by congruence. rewrite <- Hn.
  destruct (String.eqb (Name a) name); [discriminate|]. exact (IH l2 Hk' Hf).
Qed.

Lemma setFirstMTU_find (name : string) (mtu : Z) (ls : list KernelLink) :
  FindLink ls name <> None ->
  exists x, FindLink (setFirstMTU name mtu ls) name = Some x /\ MTU x = mtu.
Proof.
  induction ls as [|l ls IH]; cbn; intros Hf; [contradiction|].
  destruct (String.eqb (Name l) name) eqn:Hn.
  - cbn. rewrite Hn. eauto.
  - cbn. rewrite Hn. exact (IH Hf).
Qed.

Lemma linkSetMTU_facts (index mtu : Z) (w w' : World) (r : Result unit) :
  linkSetMTU index mtu w = (w', r) ->
  trace w' = trace w ++ [CallLinkSetMTU index mtu] /\ snapshot w' = snapshot w.
Proof.
  unfold linkSetMTU, call, modifyLink. cbn.
  destruct (fault w _); [intros E; inversion E; subst; auto|].
  destruct (find _ _); intros E; inversion E; subst; auto.
Qed.

End MTULemmas.

(** ** Claim C6 *)

(** C6 (as amended): for a Running spec, (1) a desired MTU of 0 never leads
    to an MTU call; (2) when the resolution ends the sync (a logical link
    without kind metadata, or a link that is not created here), no MTU call
    follows, whatever the MTUs; (3) when the resolution yields a kernel link
    and the wireguard and up steps succeed, the sync makes exactly one MTU
    call, for the desired value, if the desired MTU is non-zero and differs
    from that link's MTU, and none otherwise; after a successful call the
    slice's entry of the name carries the desired MTU; (4) an MTU call is
    made only when the resolution yields a kernel link and the wireguard
    and up steps succeed. *)
Theorem syncLink_mtu_only_when_changed `{WgLib} (wg : bool) (link : LinkSpec)
    (w w' : World) (r : Result unit) :
  LinkPhase link = PhaseRunning ->
  syncLink wg link w = (w', r) ->
  (SpecMTU link = 0 ->
   exists cs, trace w' = trace w ++ cs /\ Forall NoMTUCall cs) /\
  (forall w1, resolveLink link w = (w1, Ok None) -> w' = w1 /\ r = Ok tt) /\
  (forall w1 e wa w2, resolveLink link w = (w1, Ok (Some e)) ->
     (if String.eqb (Kind link) LinkKindWireguard then syncWireguard wg link else ret tt) w1
       = (wa, Ok tt) ->
     syncUp link e wa = (w2, Ok tt) ->
     (SpecMTU link <> 0 /\ SpecMTU link <> MTU e ->
        trace w' = trace w2 ++ [CallLinkSetMTU (Index e) (SpecMTU link)] /\
        (r = Ok tt -> exists x, FindLink (snapshot w') (SpecName link) = Some x /\
                                MTU x = SpecMTU link)) /\
     (SpecMTU link = 0 \/ SpecMTU link = MTU e -> w' = w2 /\ r = Ok tt)) /\
  (forall cs, trace w' = trace w ++ cs -> (exists c, In c cs /\ IsMTUCall c) ->
     exists w1 e wa w2, resolveLink link w = (w1, Ok (Some e)) /\
       (if String.eqb (Kind link) LinkKindWireguard then syncWireguard wg link else ret tt) w1
         = (wa, Ok tt) /\
       syncUp link e wa = (w2, Ok tt)).
Proof.
  intros Hph E. unfold syncLink in E. rewrite Hph in E.
  split; [|split; [|split]].
  - intros Hm.
    assert (Hs : Steps NoMTUCall
                   (existing <- resolveLink link ;;
                    match existing with
                    | None => ret tt
                    | Some e => syncSettings wg link e
                    end)).
    { apply Steps_bind; [apply resolveLink_noMTU|].
      intros [e|]; [apply syncSettings_noMTU; exact Hm | apply Steps_ret]. }
    exact (Hs w w' r E).
  - intros w1 Hres. unfold bind at 1 in E. rewrite Hres in E. inversion E; auto.
  - intros w1 e wa w2 Hres Ha Hu.
    unfold bind at 1 in E. rewrite Hres in E.
    unfold syncSettings, bind at 1 in E. rewrite Ha in E.
    unfold bind at 1 in E. rewrite Hu in E.
    (* the slice still has the name after the wireguard and up steps *)
    assert (Hname : FindLink (snapshot w2) (SpecName link) <> None).
    { assert (Kw : KeepsKeys (if String.eqb (Kind link) LinkKindWireguard
                              then syncWireguard wg link else ret tt))
        by (destruct (String.eqb _ _); [apply syncWireguard_keeps | apply KeepsKeys_ret]).
      destruct (Kw _ _ _ Ha) as [_ Sa]. destruct (syncUp_keeps link e _ _ _ Hu) as [_ Su].
      apply (FindLink_keys (snapshot w1)).
      - rewrite Su, Sa. reflexivity.
      - rewrite (resolveLink_found link w w1 e Hres). discriminate. }
    unfold syncMTU in E. split.
    + intros [Hm0 Hne].
      assert (Hb : negb (SpecMTU link =? 0) && negb (MTU e =? SpecMTU link) = true).
      { apply andb_true_intro. split; apply negb_true_iff, Z.eqb_neq; lia. }
      rewrite Hb in E. unfold bind, wrap in E.
      destruct (linkSetMTU (Index e) (SpecMTU link) w2) as [w3 r3] eqn:El.
      destruct (linkSetMTU_facts _ _ _ _ _ El) as [Ht Hs].
      destruct r3 as [u|er].
      * unfold updateLinkMTU in E. inversion E; subst. cbn. split; [exact Ht|].
        intros _. apply setFirstMTU_find. rewrite Hs. exact Hname.
      * inversion E; subst. split; [exact Ht | discriminate].
    + intros Hc.
      assert (Hb : negb (SpecMTU link =? 0) && negb (MTU e =? SpecMTU link) = false).
      { destruct Hc as [Hc|Hc]; rewrite Hc; [reflexivity|].
        rewrite Z.eqb_refl. apply andb_false_r. }
      rewrite Hb in E. inversion E; auto.
  - intros cs Hcs [c [Hin Hc]].
    unfold bind at 1 in E.
    destruct (resolveLink link w) as [w1 [[e|]|er]] eqn:Hres.
    2, 3: exfalso; injection E as <- <-;
      destruct (resolveLink_noMTU link w _ _ Hres) as [c1 [T1 F1]];
      exact (noMTU_contra _ _ _ _ _ Hcs T1 F1 Hin Hc).
    exists w1, e.
    destruct (resolveLink_noMTU link w _ _ Hres) as [c1 [T1 F1]].
    unfold syncSettings, bind at 1 in E.
    destruct ((if String.eqb (Kind link) LinkKindWireguard then syncWireguard wg link
               else ret tt) w1) as [wa [u|er]] eqn:Ha;
      destruct (wgStep_noMTU wg link _ _ _ Ha) as [c2 [T2 F2]].
    2: { exfalso. injection E as <- <-.
         refine (noMTU_contra _ _ _ (c1 ++ c2) _ Hcs _ _ Hin Hc).
         - rewrite T2, T1, app_assoc. reflexivity.
         - apply Forall_app; split; assumption. }
    exists wa. destruct u.
    unfold bind at 1 in E.
    destruct (syncUp link e wa) as [w2 [u|er]] eqn:Hu;
      destruct (syncUp_noMTU link e _ _ _ Hu) as [c3 [T3 F3]].
    2: { exfalso. injection E as <- <-.
         refine (noMTU_contra _ _ _ (c1 ++ c2 ++ c3) _ Hcs _ _ Hin Hc).
         - rewrite T3, T2, T1, !app_assoc. reflexivity.
         - apply Forall_app; split; [assumption|].
           apply Forall_app; split; assumption. }
    exists w2. destruct u. repeat split.
Qed.

Lemma syncLink_mtu_only_when_changed_witness :
  let '(w', r) := syncLink true spec_eth0_mtu9000 world_eth0_bond0 in
  LinkPhase spec_eth0_mtu9000 = PhaseRunning /\
  trace w' = [CallLinkSetMTU 2 9000] /\
  ((SpecMTU spec_eth0_mtu9000 = 0 ->
    exists cs, trace w' = trace world_eth0_bond0 ++ cs /\ Forall NoMTUCall cs) /\
   (forall w1, resolveLink spec_eth0_mtu9000 world_eth0_bond0 = (w1, Ok None) ->
      w' = w1 /\ r = Ok tt) /\
   (forall w1 e wa w2, resolveLink spec_eth0_mtu9000 world_eth0_bond0 = (w1, Ok (Some e)) ->
      (if String.eqb (Kind spec_eth0_mtu9000) LinkKindWireguard
       then syncWireguard true spec_eth0_mtu9000 else ret tt) w1 = (wa, Ok tt) ->
      syncUp spec_eth0_mtu9000 e wa = (w2, Ok tt) ->
      (SpecMTU spec_eth0_mtu9000 <> 0 /\ SpecMTU spec_eth0_mtu9000 <> MTU e ->
         trace w' = trace w2 ++ [CallLinkSetMTU (Index e) (SpecMTU spec_eth0_mtu9000)] /\
         (r = Ok tt -> exists x, FindLink (snapshot w') (SpecName spec_eth0_mtu9000) = Some x /\
                                 MTU x = SpecMTU spec_eth0_mtu9000)) /\
      (SpecMTU spec_eth0_mtu9000 = 0 \/ SpecMTU spec_eth0_mtu9000 = MTU e ->
         w' = w2 /\ r = Ok tt)) /\
   (forall cs, trace w' = trace world_eth0_bond0 ++ cs -> (exists c, In c cs /\ IsMTUCall c) ->
      exists w1 e wa w2, resolveLink spec_eth0_mtu9000 world_eth0_bond0 = (w1, Ok (Some e)) /\
        (if String.eqb (Kind spec_eth0_mtu9000) LinkKindWireguard
         then syncWireguard true spec_eth0_mtu9000 else ret tt) w1 = (wa, Ok tt) /\
        syncUp spec_eth0_mtu9000 e wa = (w2, Ok tt))).
Proof.
  destruct (syncLink true spec_eth0_mtu9000 world_eth0_bond0) as [w' r] eqn:E.
  split; [reflexivity|].
  split; [vm_compute in E; inversion E; reflexivity|].
  exact (syncLink_mtu_only_when_changed true spec_eth0_mtu9000 world_eth0_bond0 w' r
           eq_refl E).
Defined.

(** C6 as stated fails: a Running logical wireguard spec asking for MTU 9000,
    whose kernel link (MTU 1420) has no kind metadata, gets no MTU call. *)
Lemma syncLink_mtu_always_synced_counterexample :
  ~ (forall (wg : bool) (link : LinkSpec) (w w' : @World TextWgLib) (r : Result unit)
            (e : KernelLink),
       LinkPhase link = PhaseRunning ->
       FindLink (snapshot w) (SpecName link) = Some e ->
       SpecMTU link <> 0 -> SpecMTU link <> MTU e ->
       syncLink wg link w = (w', r) ->
       exists cs, trace w' = trace w ++ cs /\ In (CallLinkSetMTU (Index e) (SpecMTU link)) cs).
Proof.
  intros Hall.
  destruct (Hall true spec_wg0_mtu9000 world_wg0_noinfo
                 (fst (syncLink true spec_wg0_mtu9000 world_wg0_noinfo))
                 (snd (syncLink true spec_wg0_mtu9000 world_wg0_noinfo))
                 link_wg0_noinfo) as [cs [Ht Hin]];
    try reflexivity; try discriminate.
  vm_compute in Ht. destruct cs; [contradiction | discriminate].
Qed.

(** ** Claim C1 *)

(** C1: [Encode] does not always produce a patch that turns the existing
    configuration into the desired one.  When the desired peer has no
    preshared key and the device's peer has one, the replace entry carries a
    nil preshared key, which leaves the device's key in place: after the
    patch the device still differs from the desired configuration, and the
    next sync reconfigures the device again, with the same outcome.  The
    key texts are canonical (they are what [Key.String] gives back for the
    keys they parse to) and the private key is unchanged by clamping. *)
Theorem Encode_keeps_cleared_preshared_key :
  let existing := spec_Sort (Decode emptyWireguardSpec c1_device false) in
  let desired := spec_Sort c1_desired in
  let zp := freePort world_wg0_c1 in
  KeyString (textKey c1_peerKey) = c1_peerKey /\
  KeyString (textKey c1_psk) = c1_psk /\
  KeyString (textKey c1_privateKey) = c1_privateKey /\
  ClampKey (textKey c1_privateKey) = textKey c1_privateKey /\
  spec_Equal existing desired = false /\
  exists cfg,
    Encode desired existing = Ok cfg /\
    map PCPublicKey (CPeers cfg) = [textKey c1_peerKey] /\
    map PCPresharedKey (CPeers cfg) = [None] /\
    map PCRemove (CPeers cfg) = [false] /\
    map (fun p => KeyString (PPresharedKey p)) (DPeers (applyConfig zp c1_device cfg))
      = [c1_psk] /\
    spec_Equal (spec_Sort (Decode emptyWireguardSpec (applyConfig zp c1_device cfg) false))
               desired = false /\
    (let '(w1, r1) := syncLink true spec_wg0_c1 world_wg0_c1 in
     let '(w2, r2) := syncLink true spec_wg0_c1 w1 in
     r1 = Ok tt /\ r2 = Ok tt /\
     lookup_device "wg0" (devices w1) = Some (applyConfig zp c1_device cfg) /\
     lookup_device "wg0" (devices w2) = Some (applyConfig zp c1_device cfg) /\
     trace w1 = [CallWgDevice "wg0"; CallWgConfigureDevice "wg0"; CallBumpRefresh] /\
     trace w2 = trace w1 ++ [CallWgDevice "wg0"; CallWgConfigureDevice "wg0"; CallBumpRefresh]).
Proof.
  cbv zeta. repeat split; [vm_compute; reflexivity ..|].
  destruct (Encode (spec_Sort c1_desired) (spec_Sort (Decode emptyWireguardSpec c1_device false)))
    as [cfg|er] eqn:Ec; [|vm_compute in Ec; discriminate].
  exists cfg. split; [reflexivity|].
  vm_compute in Ec. injection Ec as <-.
  vm_compute. repeat split; reflexivity.
Qed.

(** * Further properties of the code *)

Lemma ascii_compare_trans (a b c : ascii) :
  Ascii.compare a b = Lt -> Ascii.compare b c = Lt -> Ascii.compare a c = Lt.
Proof.
  unfold Ascii.compare. rewrite !N.compare_lt_iff. lia.
Qed.

Lemma string_compare_refl (s : string) : String.compare s s = Eq.
Proof.
  induction s as [|c s IH]; cbn; [reflexivity|].
  unfold Ascii.compare. rewrite N.compare_refl. exact IH.
Qed.

Lemma str_lt_irrefl (s : string) : str_lt s s = false.
Proof. unfold str_lt. rewrite string_compare_refl. reflexivity. Qed.

Lemma str_lt_trans (a b c : string) :
  str_lt a b = true -> str_lt b c = true -> str_lt a c = true.
Proof.
  unfold str_lt. revert b c.
  induction a as [|x a IH]; intros [|y b] [|z c]; cbn; try discriminate; auto.
  destruct (Ascii.compare x y) eqn:Hxy; try discriminate;
  destruct (Ascii.compare y z) eqn:Hyz; try discriminate.
  - apply Ascii.compare_eq_iff in Hxy, Hyz. subst.
    unfold Ascii.compare at 1. rewrite N.compare_refl. apply IH.
  - apply Ascii.compare_eq_iff in Hxy. subst. rewrite Hyz. auto.
  - apply Ascii.compare_eq_iff in Hyz. subst. rewrite Hxy. auto.
  - rewrite (ascii_compare_trans x y z Hxy Hyz). auto.
Qed.

Lemma str_lt_total (a b : string) :
  str_lt a b = false -> str_lt b a = false -> a = b.
Proof.
  unfold str_lt. rewrite (String.compare_antisym b a).
  destruct (String.compare a b) eqn:E; cbn; try discriminate.
  intros _ _. apply String.compare_eq_iff. exact E.
Qed.

Section MergeLemmas.
Context `{WgLib}.

Lemma KeyLt_trans a b c : KeyLt a b -> KeyLt b c -> KeyLt a c.
Proof. apply str_lt_trans. Qed.

Lemma KeyLt_neq a b : KeyLt a b -> PublicKey a <> PublicKey b.
Proof. unfold KeyLt. intros Hl He. rewrite He, str_lt_irrefl in Hl. discriminate. Qed.

Lemma sorted_head (x p : WireguardPeer) (l : list WireguardPeer) :
  StronglySorted KeyLt (x :: l) -> In p (x :: l) -> p = x \/ KeyLt x p.
Proof.
  intros Hs [<-|Hin]; [auto|]. right.
  apply StronglySorted_inv in Hs as [_ Hf]. rewrite Forall_forall in Hf. auto.
Qed.

Lemma below_head (a x p : WireguardPeer) (l : list WireguardPeer) :
  KeyLt a x -> StronglySorted KeyLt (x :: l) -> In p (x :: l) -> KeyLt a p.
Proof.
  intros Ha Hs Hin. destruct (sorted_head x p l Hs Hin) as [->|Hx]; [exact Ha|].
  eapply KeyLt_trans; eauto.
Qed.

Lemma not_in_keys (a : WireguardPeer) (l : list WireguardPeer) :
  (forall p, In p l -> KeyLt a p) -> ~ In (PublicKey a) (map PublicKey l).
Proof.
  intros Hl Hin. apply in_map_iff in Hin as [p [Hp Hin]].
  apply (KeyLt_neq a p (Hl p Hin)). auto.
Qed.

Lemma cons_r_ok (r : Result PeerConfig) (rest : Result (list PeerConfig)) pcs :
  cons_r r rest = Ok pcs -> exists pc tl, r = Ok pc /\ rest = Ok tl /\ pcs = pc :: tl.
Proof.
  unfold cons_r. destruct r as [pc|e]; cbn; [|discriminate].
  destruct rest as [tl|e]; cbn; [|discriminate]. intros E; inversion E; eauto.
Qed.

Lemma addAll_ok sp pcs : addAll sp = Ok pcs -> Forall2 (fun pc p => addPeer p = Ok pc) pcs sp.
Proof.
  revert pcs. induction sp as [|p sp IH]; cbn; intros pcs E.
  - inversion E; constructor.
  - apply cons_r_ok in E as [pc [tl [E1 [E2 ->]]]]. constructor; auto.
Qed.

Lemma merge_srcs_in ex sp pcs srcs :
  Forall2 (MergeEntry ex sp) pcs srcs -> forall s, In s srcs -> In s ex \/ In s sp.
Proof.
  induction 1 as [|pc p pcs' srcs' He _ IH]; intros s Hs; [contradiction|].
  destruct Hs as [<-|Hs]; [|auto].
  destruct He as [[_ [Hin _]]|[_ [Hin _]]]; auto.
Qed.

Lemma mergePeers_cons_nil l ex :
  mergePeers (l :: ex) [] = cons_r (deletePeer l) (mergePeers ex []).
Proof. reflexivity. Qed.

Lemma mergePeers_cons_cons l ex r sp :
  mergePeers (l :: ex) (r :: sp) =
  if str_lt (PublicKey r) (PublicKey l) then cons_r (addPeer r) (mergePeers (l :: ex) sp)
  else if str_lt (PublicKey l) (PublicKey r) then cons_r (deletePeer l) (mergePeers ex (r :: sp))
  else if peer_Equal l r then mergePeers ex sp
  else cons_r (addPeer r) (mergePeers ex sp).
Proof. reflexivity. Qed.

Lemma peer_Equal_key a b : peer_Equal a b = true -> PublicKey a = PublicKey b.
Proof.
  unfold peer_Equal. intros Hq. repeat (apply andb_prop in Hq as [Hq _]).
  apply String.eqb_eq. exact Hq.
Qed.

Lemma Forall2_in_r {A B} (R : A -> B -> Prop) l1 l2 :
  Forall2 R l1 l2 -> Forall2 (fun a b => R a b /\ In b l2) l1 l2.
Proof.
  induction 1 as [|a b l1 l2 Hab _ IH]; constructor.
  - split; [exact Hab | left; reflexivity].
  - eapply Forall2_impl; [|exact IH]. intros x y [Hxy Hin]. split; [exact Hxy | right; exact Hin].
Qed.

Lemma ChangedFrom_cons (l p : WireguardPeer) (ex : list WireguardPeer) :
  (PublicKey l = PublicKey p -> peer_Equal l p = false) -> ChangedFrom ex p ->
  ChangedFrom (l :: ex) p.
Proof. intros Hl Hex q [<-|Hq] Hk; auto. Qed.

Lemma ChangedFrom_tail (l p : WireguardPeer) (ex : list WireguardPeer) :
  ChangedFrom (l :: ex) p -> ChangedFrom ex p.
Proof. intros Hc q Hq. apply Hc. right. exact Hq. Qed.

Lemma sorted_tail_lt (l : WireguardPeer) (ex : list WireguardPeer) :
  StronglySorted KeyLt (l :: ex) -> forall q, In q ex -> KeyLt l q.
Proof.
  intros Hs. apply StronglySorted_inv in Hs as [_ Hf]. rewrite Forall_forall in Hf. exact Hf.
Qed.

Lemma mergePeers_spec ex : forall sp pcs,
  StronglySorted KeyLt ex -> StronglySorted KeyLt sp ->
  mergePeers ex sp = Ok pcs -> MergeSpec ex sp pcs.
Proof.
  induction ex as [|l ex IHex]; intros sp pcs Hex Hsp E.
  - (* existing exhausted: every desired peer is added *)
    cbn in E. apply addAll_ok, Forall2_in_r in E. exists sp.
    split; [|split; [exact Hsp|split]].
    + eapply Forall2_impl; [|exact E]. intros pc p [Ha Hin]. right.
      split; [exact Ha|]. split; [exact Hin | intros q []].
    + intros q [].
    + intros p Hp _. exact Hp.
  - pose proof (StronglySorted_inv Hex) as [Hex' _].
    pose proof (sorted_tail_lt l ex Hex) as Hlex.
    revert pcs Hsp E. induction sp as [|r sp IHsp]; intros pcs Hsp E.
    + (* desired exhausted: the existing peer is removed *)
      rewrite mergePeers_cons_nil in E.
      apply cons_r_ok in E as [pc [tl [Ed [Et ->]]]].
      destruct (IHex [] tl Hex' Hsp Et) as [srcs [F [S [C1 C2]]]].
      pose proof (merge_srcs_in _ _ _ _ F) as Hin.
      exists (l :: srcs). split; [|split; [|split]].
      * constructor; [left; split; [exact Ed|]; split; [left; reflexivity | intros []]|].
        eapply Forall2_impl; [|exact F].
        intros pc' p [[Hd [Hp Hk]]|[_ [[] _]]]. left. split; [exact Hd|]. split; [right; exact Hp | exact Hk].
      * constructor; [exact S|]. rewrite Forall_forall. intros s Hs.
        destruct (Hin s Hs) as [Hs'|[]]. auto.
      * intros q [<-|Hq] Hk; [left; reflexivity | right; auto].
      * intros p [].
    + pose proof (StronglySorted_inv Hsp) as [Hsp' _].
      pose proof (sorted_tail_lt r sp Hsp) as Hrsp.
      rewrite mergePeers_cons_cons in E.
      destruct (str_lt (PublicKey r) (PublicKey l)) eqn:Hrl.
      * (* the desired peer comes first: it is added *)
        apply cons_r_ok in E as [pc [tl [Ea [Et ->]]]].
        destruct (IHsp tl Hsp' Et) as [srcs [F [S [C1 C2]]]].
        pose proof (merge_srcs_in _ _ _ _ F) as Hin.
        assert (Hr : forall q, In q (l :: ex) -> KeyLt r q) by (intros q Hq; eapply below_head; eauto).
        exists (r :: srcs). split; [|split; [|split]].
        -- constructor.
           ++ right. split; [exact Ea|]. split; [left; reflexivity|].
              intros q Hq Hk. exfalso. apply (KeyLt_neq r q (Hr q Hq)). auto.
           ++ eapply Forall2_impl; [|exact F].
              intros pc' p [[Hd [Hp Hk]]|[Ha [Hp Hc]]].
              ** left. split; [exact Hd|]. split; [exact Hp|].
                 intros [Heq|Hk']; [|contradiction].
                 apply (KeyLt_neq r p (Hr p Hp)). auto.
              ** right. split; [exact Ha|]. split; [right; exact Hp | exact Hc].
        -- constructor; [exact S|]. rewrite Forall_forall. intros s Hs.
           destruct (Hin s Hs) as [Hs'|Hs']; auto.
        -- intros q Hq Hk. right. apply C1; [exact Hq|]. intros Hk'. apply Hk. right. exact Hk'.
        -- intros p [<-|Hp] Hc; [left; reflexivity | right; auto].
      * destruct (str_lt (PublicKey l) (PublicKey r)) eqn:Hlr.
        -- (* the existing peer comes first: it is removed *)
           apply cons_r_ok in E as [pc [tl [Ed [Et ->]]]].
           destruct (IHex (r :: sp) tl Hex' Hsp Et) as [srcs [F [S [C1 C2]]]].
           pose proof (merge_srcs_in _ _ _ _ F) as Hin.
           assert (Hl : forall p, In p (r :: sp) -> KeyLt l p) by (intros p Hp; eapply below_head; eauto).
           exists (l :: srcs). split; [|split; [|split]].
           ++ constructor.
              ** left. split; [exact Ed|]. split; [left; reflexivity|]. apply not_in_keys. exact Hl.
              ** eapply Forall2_impl; [|exact F].
                 intros pc' p [[Hd [Hp Hk]]|[Ha [Hp Hc]]].
                 --- left. split; [exact Hd|]. split; [right; exact Hp | exact Hk].
                 --- right. split; [exact Ha|]. split; [exact Hp|].
                     apply ChangedFrom_cons; [|exact Hc].
                     intros Hk. exfalso. exact (KeyLt_neq l p (Hl p Hp) Hk).
           ++ constructor; [exact S|]. rewrite Forall_forall. intros s Hs.
              destruct (Hin s Hs) as [Hs'|Hs']; auto.
           ++ intros q [<-|Hq] Hk; [left; reflexivity | right; auto].
           ++ intros p Hp Hc. right. apply C2; [exact Hp|]. eapply ChangedFrom_tail; eauto.
        -- (* same key *)
           pose proof (str_lt_total _ _ Hlr Hrl) as Hk.
           assert (Hex_r : forall q, In q ex -> PublicKey q <> PublicKey r).
           { intros q Hq Hq'. apply (KeyLt_neq l q (Hlex q Hq)). congruence. }
           assert (Hsp_l : forall p, In p sp -> PublicKey l <> PublicKey p).
           { intros p Hp Hp'. apply (KeyLt_neq r p (Hrsp p Hp)). congruence. }
           assert (Lift : forall pcs' srcs', Forall2 (MergeEntry ex sp) pcs' srcs' ->
                            Forall2 (MergeEntry (l :: ex) (r :: sp)) pcs' srcs').
           { intros pcs' srcs' F. eapply Forall2_impl; [|exact F].
             intros pc' p [[Hd [Hp Hk']]|[Ha [Hp Hc]]].
             - left. split; [exact Hd|]. split; [right; exact Hp|].
               intros [Heq|Hk'']; [exact (Hex_r p Hp (eq_sym Heq)) | contradiction].
             - right. split; [exact Ha|]. split; [right; exact Hp|].
               apply ChangedFrom_cons; [|exact Hc].
               intros Hk'. exfalso. exact (Hsp_l p Hp Hk'). }
           assert (Rem : forall srcs', (forall q, In q ex -> ~ In (PublicKey q) (map PublicKey sp) -> In q srcs') ->
                           forall q, In q (l :: ex) -> ~ In (PublicKey q) (map PublicKey (r :: sp)) ->
                           In q srcs').
           { intros srcs' C1 q [<-|Hq] Hk'.
             - exfalso. apply Hk'. left. symmetry. exact Hk.
             - apply C1; [exact Hq|]. intros Hk''. apply Hk'. right. exact Hk''. }
           destruct (peer_Equal l r) eqn:Hpe.
           ++ (* identical: no entry *)
              destruct (IHex sp pcs Hex' Hsp' E) as [srcs [F [S [C1 C2]]]].
              exists srcs. split; [exact (Lift _ _ F)|]. split; [exact S|]. split; [exact (Rem _ C1)|].
              intros p [<-|Hp] Hc.
              ** rewrite (Hc l (or_introl eq_refl) Hk) in Hpe. discriminate.
              ** apply C2; [exact Hp|]. eapply ChangedFrom_tail; eauto.
           ++ (* changed: replaced *)
              apply cons_r_ok in E as [pc [tl [Ea [Et ->]]]].
              destruct (IHex sp tl Hex' Hsp' Et) as [srcs [F [S [C1 C2]]]].
              pose proof (merge_srcs_in _ _ _ _ F) as Hin.
              exists (r :: srcs). split; [|split; [|split]].
              ** constructor; [|exact (Lift _ _ F)].
                 right. split; [exact Ea|]. split; [left; reflexivity|].
                 apply ChangedFrom_cons; [intros _; exact Hpe|].
                 intros q Hq Hq'. exfalso. exact (Hex_r q Hq Hq').
              ** constructor; [exact S|]. rewrite Forall_forall. intros s Hs.
                 destruct (Hin s Hs) as [Hs'|Hs']; [|auto].
                 unfold KeyLt. rewrite <- Hk. apply Hlex. exact Hs'.
              ** intros q Hq Hk'. right. exact (Rem _ C1 q Hq Hk').
              ** intros p [<-|Hp] Hc; [left; reflexivity|]. right.
                 apply C2; [exact Hp|]. eapply ChangedFrom_tail; eauto.
Qed.
End MergeLemmas.

Section EncodeLemmas.
Context `{WgLib}.

Lemma list_eqb_prefix_refl (xs : list Prefix) : list_eqb prefix_eqb xs xs = true.
Proof.
  induction xs as [|[a b] xs IH]; [reflexivity|].
  cbn [list_eqb]. rewrite IH. unfold prefix_eqb. cbn [fst snd]. rewrite !Z.eqb_refl. reflexivity.
Qed.

Lemma peer_Equal_refl (p : WireguardPeer) : peer_Equal p p = true.
Proof.
  unfold peer_Equal. rewrite !String.eqb_refl, Z.eqb_refl, list_eqb_prefix_refl. reflexivity.
Qed.

Lemma mergePeers_same (ps : list WireguardPeer) : mergePeers ps ps = Ok [].
Proof.
  induction ps as [|p ps IH]; [reflexivity|].
  rewrite mergePeers_cons_cons, str_lt_irrefl, peer_Equal_refl. exact IH.
Qed.

Lemma parseKey_err s e : parseKey s = Err e -> CodecError e.
Proof. unfold parseKey. destruct (ParseKey s); intros E; inversion E. left. eauto. Qed.

Lemma rbind_err {A B} (r : Result A) (f : A -> Result B) e :
  rbind r f = Err e -> r = Err e \/ exists a, r = Ok a /\ f a = Err e.
Proof. destruct r as [a|e']; cbn; intros E; [right; eauto | left; congruence]. Qed.

Lemma addPeer_err p e : addPeer p = Err e -> CodecError e.
Proof.
  unfold addPeer. intros E.
  apply rbind_err in E as [E|[k [_ E]]]; [eapply parseKey_err; eauto|].
  apply rbind_err in E as [E|[psk [_ E]]].
  { destruct (String.eqb (PresharedKey p) ""); [discriminate|].
    apply rbind_err in E as [E|[k' [_ E]]]; [eapply parseKey_err; eauto | discriminate]. }
  apply rbind_err in E as [E|[ep [_ E]]]; [|discriminate].
  destruct (String.eqb (Endpoint p) ""); [discriminate|].
  apply rbind_err in E as [E|[a [_ E]]]; [|discriminate].
  unfold resolveUDPAddr in E. destruct (ResolveUDPAddr (Endpoint p)); inversion E. right. eauto.
Qed.

Lemma deletePeer_err p e : deletePeer p = Err e -> CodecError e.
Proof.
  unfold deletePeer. intros E.
  apply rbind_err in E as [E|[k [_ E]]]; [eapply parseKey_err; eauto | discriminate].
Qed.

Lemma cons_r_err r rest e :
  cons_r r rest = Err e -> r = Err e \/ rest = Err e.
Proof.
  unfold cons_r. intros E. apply rbind_err in E as [E|[pc [Hr E]]]; [auto|].
  apply rbind_err in E as [E|[tl [_ E]]]; [auto | discriminate].
Qed.

Lemma addAll_err sp e : addAll sp = Err e -> CodecError e.
Proof.
  induction sp as [|p sp IH]; cbn; intros E; [discriminate|].
  apply cons_r_err in E as [E|E]; [eapply addPeer_err; eauto | auto].
Qed.

Lemma mergePeers_err ex : forall sp e, mergePeers ex sp = Err e -> CodecError e.
Proof.
  induction ex as [|l ex IHex]; intros sp e E; [eapply addAll_err; eauto|].
  induction sp as [|r sp IHsp].
  - rewrite mergePeers_cons_nil in E.
    apply cons_r_err in E as [E|E]; [eapply deletePeer_err; eauto | eapply IHex; eauto].
  - rewrite mergePeers_cons_cons in E.
    destruct (str_lt _ _); [|destruct (str_lt _ _); [|destruct (peer_Equal l r)]];
      try (apply cons_r_err in E as [E|E]);
      solve [eapply addPeer_err; eauto | eapply deletePeer_err; eauto
            | eapply IHsp; eauto | eapply IHex; eauto].
Qed.

Lemma parseKey_ok s : ParseKey s <> None -> exists k, parseKey s = Ok k.
Proof. unfold parseKey. destruct (ParseKey s); [eauto | contradiction]. Qed.

Lemma addPeer_ok p : PeerValid p -> exists pc, addPeer p = Ok pc.
Proof.
  intros [Hk [Hpsk Hep]]. unfold addPeer.
  destruct (parseKey_ok _ Hk) as [k ->]. cbn [rbind].
  assert (Hps : exists o, (if String.eqb (PresharedKey p) "" then Ok None
                           else k' <-? parseKey (PresharedKey p) ;; Ok (Some k')) = Ok o).
  { destruct (String.eqb (PresharedKey p) "") eqn:Ep; [eauto|].
    apply String.eqb_neq in Ep. destruct (parseKey_ok _ (Hpsk Ep)) as [k' ->]. cbn. eauto. }
  assert (Hea : exists o, (if String.eqb (Endpoint p) "" then Ok None
                           else a <-? resolveUDPAddr (Endpoint p) ;; Ok (Some a)) = Ok o).
  { destruct (String.eqb (Endpoint p) "") eqn:Ee; [eauto|].
    apply String.eqb_neq in Ee. unfold resolveUDPAddr.
    destruct (ResolveUDPAddr (Endpoint p)); cbn; [eauto | exfalso; exact (Hep Ee eq_refl)]. }
  destruct Hps as [o1 ->]. cbn [rbind]. destruct Hea as [o2 ->]. cbn [rbind]. eauto.
Qed.

Lemma deletePeer_ok q : ParseKey (PublicKey q) <> None -> exists pc, deletePeer q = Ok pc.
Proof. intros Hk. unfold deletePeer. destruct (parseKey_ok _ Hk) as [k ->]. cbn. eauto. Qed.

Lemma cons_r_ok' r rest pc tl : r = Ok pc -> rest = Ok tl -> cons_r r rest = Ok (pc :: tl).
Proof. intros -> ->. reflexivity. Qed.

Lemma addAll_ok' sp : Forall PeerValid sp -> exists pcs, addAll sp = Ok pcs.
Proof.
  induction 1 as [|p sp Hp _ IH]; [exists []; reflexivity|].
  destruct (addPeer_ok p Hp) as [pc E1]. destruct IH as [tl E2].
  exists (pc :: tl). cbn. apply cons_r_ok'; assumption.
Qed.

Lemma mergePeers_ok ex : forall sp,
  Forall (fun q => ParseKey (PublicKey q) <> None) ex -> Forall PeerValid sp ->
  exists pcs, mergePeers ex sp = Ok pcs.
Proof.
  induction ex as [|l ex IHex]; intros sp Hex Hsp; [apply addAll_ok'; exact Hsp|].
  pose proof (Forall_inv Hex) as Hl. pose proof (Forall_inv_tail Hex) as Hex'.
  induction sp as [|r sp IHsp].
  - rewrite mergePeers_cons_nil.
    destruct (deletePeer_ok l Hl) as [pc E1]. destruct (IHex [] Hex' Hsp) as [tl E2].
    exists (pc :: tl). apply cons_r_ok'; assumption.
  - pose proof (Forall_inv Hsp) as Hr. pose proof (Forall_inv_tail Hsp) as Hsp'.
    rewrite mergePeers_cons_cons.
    destruct (addPeer_ok r Hr) as [pa Ea]. destruct (deletePeer_ok l Hl) as [pd Ed].
    destruct (str_lt _ _).
    { destruct (IHsp Hsp') as [tl E2]. exists (pa :: tl). apply cons_r_ok'; assumption. }
    destruct (str_lt _ _).
    { destruct (IHex (r :: sp) Hex' Hsp) as [tl E2]. exists (pd :: tl). apply cons_r_ok'; assumption. }
    destruct (IHex sp Hex' Hsp') as [tl E2].
    destruct (peer_Equal l r); [exists tl; exact E2|].
    exists (pa :: tl). apply cons_r_ok'; assumption.
Qed.

End EncodeLemmas.

(** [Encode] of a spec against itself is the empty patch: no private key,
    port, mark or peer entry. *)
Theorem Encode_same_spec_is_empty_patch `{WgLib} (s : WireguardSpec) :
  Encode s s = Ok {| CPrivateKey := None; CListenPort := None; CFirewallMark := None;
                     CPeers := [] |}.
Proof.
  unfold Encode. rewrite String.eqb_refl, !Z.eqb_refl, mergePeers_same. reflexivity.
Qed.

(** [Encode] fails only with a key-parse or address-resolve error, and it
    succeeds when the keys it has to parse are valid and the endpoints of
    the wanted peers resolve. *)
Theorem Encode_fails_only_on_invalid_input `{WgLib} (spec existing : WireguardSpec) :
  (forall e, Encode spec existing = Err e -> CodecError e) /\
  ((PrivateKey existing <> PrivateKey spec -> ParseKey (PrivateKey spec) <> None) ->
   Forall PeerValid (Peers spec) ->
   Forall (fun q => ParseKey (PublicKey q) <> None) (Peers existing) ->
   exists cfg, Encode spec existing = Ok cfg).
Proof.
  split.
  - intros e E. unfold Encode in E.
    apply rbind_err in E as [E|[pk [_ E]]].
    + destruct (String.eqb _ _); [discriminate|].
      apply rbind_err in E as [E|[k [_ E]]]; [eapply parseKey_err; eauto | discriminate].
    + apply rbind_err in E as [E|[ps [_ E]]]; [eapply mergePeers_err; eauto | discriminate].
  - intros Hpk Hsp Hex. unfold Encode.
    destruct (mergePeers_ok _ _ Hex Hsp) as [pcs Em].
    destruct (String.eqb (PrivateKey existing) (PrivateKey spec)) eqn:Ek; cbn.
    + rewrite Em. cbn. eauto.
    + apply String.eqb_neq in Ek. destruct (parseKey_ok _ (Hpk Ek)) as [k ->]. cbn.
      rewrite Em. cbn. eauto.
Qed.

Section PreludeLemmas.
Context `{WgLib}.

Lemma call_ok {A} c (eff : World -> World * Result A) (w w' : World) (a : A) :
  call c eff w = (w', Ok a) ->
  fault w c = false /\ eff (record_call c w) = (w', Ok a).
Proof.
  unfold call. cbn. destruct (fault w c); [discriminate|]. auto.
Qed.

Lemma addFinalizer_ok name (w w' : World) (u : unit) :
  addFinalizer name w = (w', Ok u) ->
  kernelLinks w' = kernelLinks w /\ trace w' = trace w ++ [CallAddFinalizer name] /\
  (forall n, In n (finalizers w') <-> In n (finalizers w) \/ n = name).
Proof.
  unfold addFinalizer. intros E. apply call_ok in E as [_ E]. inversion E; subst. cbn.
  split; [reflexivity|]. split; [reflexivity|]. intros n.
  destruct (existsb (String.eqb name) (finalizers w)) eqn:Ex.
  - split; [auto|]. intros [Hn| ->]; [exact Hn|].
    apply existsb_exists in Ex as [m [Hm Heq]]. apply String.eqb_eq in Heq. subst. exact Hm.
  - rewrite in_app_iff. cbn. split; intros [Hn|Hn]; auto.
    + destruct Hn as [<-|[]]. auto.
Qed.

Lemma addFinalizers_ok (items : list LinkSpec) : forall (w w' : World) (u : unit),
  addFinalizers items w = (w', Ok u) ->
  kernelLinks w' = kernelLinks w /\
  trace w' = trace w ++ map (fun it => CallAddFinalizer (SpecName it)) (filter isRunning items) /\
  (forall n, In n (finalizers w') <->
             In n (finalizers w) \/
             exists it, In it items /\ LinkPhase it = PhaseRunning /\ SpecName it = n).
Proof.
  induction items as [|it rest IH]; intros w w' u E.
  - inversion E; subst. rewrite app_nil_r. split; [reflexivity|]. split; [reflexivity|].
    intros n. split; [auto|]. intros [Hn|[it [[] _]]]. exact Hn.
  - cbn in E. apply bind_ok in E as [w1 [u1 [E1 E2]]].
    destruct (IH _ _ _ E2) as [Hk [Ht Hf]].
    unfold isRunning at 1. cbn [filter].
    destruct (LinkPhase it) eqn:Hph.
    + apply wrap_ok, addFinalizer_ok in E1 as [Hk1 [Ht1 Hf1]].
      split; [congruence|]. split; [rewrite Ht, Ht1, <- app_assoc; reflexivity|].
      intros n. rewrite Hf, Hf1. split.
      * intros [[Hn| ->]|[it' [Hin [Hr Hn]]]]; [auto| |].
        -- right. exists it. split; [left; reflexivity|]. auto.
        -- right. exists it'. split; [right; exact Hin|]. auto.
      * intros [Hn|[it' [[<-|Hin] [Hr Hn]]]]; auto.
        right. exists it'. auto.
    + inversion E1; subst. split; [exact Hk|]. split; [exact Ht|].
      intros n. rewrite Hf. split.
      * intros [Hn|[it' [Hin [Hr Hn]]]]; [auto|]. right. exists it'. split; [right; exact Hin|]. auto.
      * intros [Hn|[it' [[<-|Hin] [Hr Hn]]]]; [auto| congruence |].
        right. exists it'. auto.
Qed.

End PreludeLemmas.

(** A successful start of a cycle lists the specs, adds the finalizer of
    each Running spec in order, lists the kernel links and takes them as the
    snapshot, leaving the kernel untouched. *)
Theorem runPrelude_ok `{WgLib} (w w1 : World) (items : list LinkSpec) :
  runPrelude w = (w1, Ok items) ->
  items = specs w /\
  kernelLinks w1 = kernelLinks w /\ snapshot w1 = kernelLinks w1 /\
  trace w1 = trace w ++ CallListSpecs ::
               map (fun it => CallAddFinalizer (SpecName it)) (filter isRunning items) ++
               [CallLinkList] /\
  (forall n, In n (finalizers w1) <->
             In n (finalizers w) \/
             exists it, In it items /\ LinkPhase it = PhaseRunning /\ SpecName it = n).
Proof.
  unfold runPrelude. intros E.
  apply bind_ok in E as [w2 [its [E1 E]]].
  apply wrap_ok in E1. unfold listSpecs in E1. apply call_ok in E1 as [_ E1].
  inversion E1; subst w2 its.
  apply bind_ok in E as [w3 [u [E2 E]]].
  destruct (addFinalizers_ok _ _ _ _ E2) as [Hk [Ht Hf]].
  apply bind_ok in E as [w4 [links [E3 E]]].
  apply wrap_ok in E3. unfold linkList in E3. apply call_ok in E3 as [_ E3].
  inversion E3; subst w4 links. inversion E; subst w1 items. cbn in *.
  split; [reflexivity|]. split; [exact Hk|]. split; [reflexivity|]. split.
  - rewrite Ht. rewrite <- !app_assoc. reflexivity.
  - exact Hf.
Qed.

Section KernelLemmas.
Context `{WgLib}.

Lemma KeepsKernel_ret {A} (a : A) : KeepsKernel (ret a).
Proof. intros w w' r E. inversion E. reflexivity. Qed.

Lemma KeepsKernel_fail {A} e : KeepsKernel (@fail _ A e).
Proof. intros w w' r E. inversion E. reflexivity. Qed.

Lemma KeepsKernel_bind {A B} (m : M A) (k : A -> M B) :
  KeepsKernel m -> (forall a, KeepsKernel (k a)) -> KeepsKernel (bind m k).
Proof.
  intros Hm Hk w w' r E. unfold bind in E.
  destruct (m w) as [w1 [a|e]] eqn:E1.
  - rewrite (Hk a _ _ _ E). exact (Hm _ _ _ E1).
  - inversion E; subst. exact (Hm _ _ _ E1).
Qed.

Lemma KeepsKernel_wrap {A} msg name (m : M A) : KeepsKernel m -> KeepsKernel (wrap msg name m).
Proof.
  intros Hm w w' r E. unfold wrap in E.
  destruct (m w) as [w1 [a|e]] eqn:E1; inversion E; subst; exact (Hm _ _ _ E1).
Qed.

Lemma KeepsKernel_call {A} c (eff : World -> World * Result A) :
  (forall w, kernelLinks (fst (eff w)) = kernelLinks w) -> KeepsKernel (call c eff).
Proof.
  intros Heff w w' r E. unfold call in E.
  destruct (fault (record_call c w) c).
  - inversion E; subst. reflexivity.
  - specialize (Heff (record_call c w)). rewrite E in Heff. exact Heff.
Qed.

Lemma syncWireguard_kernel wg link : KeepsKernel (syncWireguard wg link).
Proof.
  unfold syncWireguard. destruct (negb wg); [apply KeepsKernel_fail|].
  apply KeepsKernel_bind.
  - apply KeepsKernel_wrap, KeepsKernel_call. intros w. cbn.
    destruct (lookup_device _ _); reflexivity.
  - intros dev. destruct (spec_Equal _ _); [apply KeepsKernel_ret|].
    destruct (Encode _ _); [|apply KeepsKernel_fail].
    apply KeepsKernel_bind.
    + apply KeepsKernel_wrap, KeepsKernel_call. intros w. cbn.
      destruct (lookup_device _ _); reflexivity.
    + intros _ w w' r E. unfold bumpRefresh, call in E. cbn in E.
      destruct (fault w CallBumpRefresh); inversion E; subst; reflexivity.
Qed.

Lemma find_index_update (i : Z) (f : KernelLink -> KernelLink) (ls : list KernelLink) (k : KernelLink) :
  (forall l, Index (f l) = Index l) ->
  find (fun l => Index l =? i) ls = Some k ->
  find (fun l => Index l =? i) (map (fun l => if Index l =? i then f l else l) ls) = Some (f k).
Proof.
  intros Hf. induction ls as [|l ls IH]; cbn; [discriminate|].
  destruct (Index l =? i) eqn:Hi.
  - intros E. inversion E; subst. rewrite Hf, Hi. reflexivity.
  - intros E. rewrite Hi. exact (IH E).
Qed.

(** A successful [modifyLink] on a link found by index. *)
Lemma modifyLink_ok (i : Z) (f : KernelLink -> KernelLink) (w w' : World) (k : KernelLink) :
  (forall l, Index (f l) = Index l) ->
  find (fun l => Index l =? i) (kernelLinks w) = Some k ->
  modifyLink i f w = (w', Ok tt) ->
  find (fun l => Index l =? i) (kernelLinks w') = Some (f k).
Proof.
  intros Hf Hk E. unfold modifyLink in E. rewrite Hk in E. inversion E; subst. cbn.
  apply find_index_update; assumption.
Qed.

(** A successful [linkSetFlags] effect on a link found by index. *)
Lemma setFlagsEffect_ok (i flags change : Z) (w w' : World) (k : KernelLink) :
  find (fun l => Index l =? i) (kernelLinks w) = Some k ->
  setFlagsEffect i flags change w = (w', Ok tt) ->
  find (fun l => Index l =? i) (kernelLinks w') = Some (setFlags flags change k).
Proof.
  intros Hk E.
  destruct (setFlagsEffect_fields i flags change w) as (_ & Hkl & _ & _).
  rewrite E in Hkl. cbn [fst] in Hkl. rewrite Hkl.
  eapply modifyLink_ok; [intros l; reflexivity | exact Hk |].
  unfold modifyLink. rewrite Hk. reflexivity.
Qed.

Lemma up_bit (f g : Z) : g = 0 \/ g = 1 ->
  Z.land (Z.lor (Z.land f (Z.lnot IFF_UP)) (Z.land g IFF_UP)) IFF_UP = g.
Proof.
  intros Hg. unfold IFF_UP. rewrite Z.land_lor_distr_l, <- !Z.land_assoc.
  replace (Z.land (Z.lnot 1) 1) with 0 by reflexivity.
  rewrite Z.land_0_r, Z.lor_0_l, Z.land_diag. destruct Hg as [-> | ->]; reflexivity.
Qed.

End KernelLemmas.



Section SettingsReach.
Context `{WgLib}.

(** The per-field effect of the settings steps on the kernel link they act on. *)
Lemma syncSettings_reaches (wg : bool) (link : LinkSpec) (w1 w' : World) (e k0 : KernelLink) :
  find (fun l => Index l =? Index e) (kernelLinks w1) = Some k0 ->
  Flags k0 = Flags e -> MTU k0 = MTU e ->
  syncSettings wg link e w1 = (w', Ok tt) ->
  exists k, find (fun l => Index l =? Index e) (kernelLinks w') = Some k /\
    (Z.land (Flags k) IFF_UP =? IFF_UP) = Up link /\
    MTU k = (if SpecMTU link =? 0 then MTU e else SpecMTU link) /\
    Name k = Name k0 /\ LinkType k = LinkType k0 /\ Info k = Info k0.
Proof.
  intros Hk0 Hfl Hmtu E.
  unfold syncSettings in E.
  apply bind_ok in E as [wa [u1 [Ea E]]].
  assert (Hka : kernelLinks wa = kernelLinks w1).
  { destruct (String.eqb _ _) in Ea; [exact (syncWireguard_kernel wg link _ _ _ Ea)|].
    inversion Ea; reflexivity. }
  apply bind_ok in E as [wb [u2 [Eb E]]].
  assert (Hb : exists kb, find (fun l => Index l =? Index e) (kernelLinks wb) = Some kb /\
                 (Z.land (Flags kb) IFF_UP =? IFF_UP) = Up link /\ MTU kb = MTU e /\
                 Name kb = Name k0 /\ LinkType kb = LinkType k0 /\ Info kb = Info k0).
  { unfold syncUp in Eb.
    destruct (Bool.eqb (Z.land (Flags e) IFF_UP =? IFF_UP) (Up link)) eqn:Hup.
    - inversion Eb; subst. exists k0. rewrite Hka. split; [exact Hk0|].
      split; [rewrite Hfl; apply Bool.eqb_prop; exact Hup | auto].
    - apply wrap_ok in Eb. unfold linkSetFlags in Eb. apply call_ok in Eb as [_ Eb].
      destruct u2. eapply setFlagsEffect_ok in Eb; [| cbn; rewrite Hka; exact Hk0].
      eexists. split; [exact Eb|]. cbn. split; [|auto].
      rewrite up_bit; [|destruct (Up link); auto].
      destruct (Up link); reflexivity. }
  destruct Hb as [kb [Hkb [Hupb [Hmb Hrest]]]].
  unfold syncMTU in E.
  destruct (negb (SpecMTU link =? 0) && negb (MTU e =? SpecMTU link)) eqn:Hc.
  - apply bind_ok in E as [wc [u3 [Ec E]]].
    apply wrap_ok in Ec. unfold linkSetMTU in Ec. apply call_ok in Ec as [_ Ec].
    destruct u3. eapply modifyLink_ok in Ec; [| intros l; reflexivity | cbn; exact Hkb].
    unfold updateLinkMTU in E. inversion E; subst. cbn.
    eexists. split; [exact Ec|]. cbn. split; [exact Hupb|]. split; [|exact Hrest].
    apply andb_prop in Hc as [Hc _]. apply negb_true_iff in Hc. rewrite Hc. reflexivity.
  - inversion E; subst. exists kb. split; [exact Hkb|]. split; [exact Hupb|].
    split; [|exact Hrest].
    rewrite Hmb. destruct (SpecMTU link =? 0) eqn:H0; [reflexivity|].
    cbn in Hc. apply negb_false_iff, Z.eqb_eq in Hc. exact Hc.
Qed.

End SettingsReach.

(** After a successful sync of a Running link resolved to a kernel link, that
    link has the UP state of the spec and the spec's MTU (the link's own one
    when the spec's is 0); its name, type and kind are unchanged. *)
Theorem syncLink_reaches_up_and_mtu `{WgLib} (wg : bool) (link : LinkSpec)
    (w w1 w' : World) (e k0 : KernelLink) :
  LinkPhase link = PhaseRunning ->
  resolveLink link w = (w1, Ok (Some e)) ->
  find (fun l => Index l =? Index e) (kernelLinks w1) = Some k0 ->
  Flags k0 = Flags e -> MTU k0 = MTU e ->
  syncLink wg link w = (w', Ok tt) ->
  exists k, find (fun l => Index l =? Index e) (kernelLinks w') = Some k /\
    (Z.land (Flags k) IFF_UP =? IFF_UP) = Up link /\
    MTU k = (if SpecMTU link =? 0 then MTU e else SpecMTU link) /\
    Name k = Name k0 /\ LinkType k = LinkType k0 /\ Info k = Info k0.
Proof.
  intros Hph Hres Hk0 Hfl Hmtu E.
  unfold syncLink in E. rewrite Hph in E. unfold bind at 1 in E. rewrite Hres in E.
  exact (syncSettings_reaches wg link w1 w' e k0 Hk0 Hfl Hmtu E).
Qed.

Section WireguardLemmas.
Context `{WgLib}.

Lemma lookup_record_call c w n : lookup_device n (devices (record_call c w)) = lookup_device n (devices w).
Proof. reflexivity. Qed.

Lemma Encode_peers (spec existing : WireguardSpec) (cfg : Config) :
  Encode spec existing = Ok cfg -> mergePeers (Peers existing) (Peers spec) = Ok (CPeers cfg).
Proof.
  unfold Encode, rbind. intros E.
  destruct (if String.eqb (PrivateKey existing) (PrivateKey spec) then Ok None
            else match parseKey (PrivateKey spec) with Ok k => Ok (Some k) | Err e => Err e end);
    [|discriminate].
  destruct (mergePeers (Peers existing) (Peers spec)); [|discriminate].
  inversion E; reflexivity.
Qed.

End WireguardLemmas.

(** [FindLink] returns the first link of the list with the name, and
    nothing when no link has it. *)
Theorem FindLink_first_match (ls : list KernelLink) (n : string) (l : KernelLink) :
  FindLink ls n = Some l <->
  exists pre post, ls = pre ++ l :: post /\ Name l = n /\ Forall (fun x => Name x <> n) pre.
Proof.
  unfold FindLink. split.
  - induction ls as [|x ls IH]; cbn; [discriminate|].
    destruct (String.eqb (Name x) n) eqn:Hx.
    + intros E. inversion E; subst. apply String.eqb_eq in Hx.
      exists [], ls. auto.
    + intros E. destruct (IH E) as [pre [post [-> [Hn Hpre]]]].
      exists (x :: pre), post. split; [reflexivity|]. split; [exact Hn|].
      constructor; [|exact Hpre]. intros Heq. apply String.eqb_neq in Hx. exact (Hx Heq).
  - intros [pre [post [-> [Hn Hpre]]]]. induction Hpre as [|x pre Hx _ IH]; cbn.
    + rewrite Hn, String.eqb_refl. reflexivity.
    + apply String.eqb_neq in Hx. rewrite Hx. exact IH.
Qed.

(** [Encode] on peer lists sorted by public key: every peer entry of the
    patch comes from one peer, in increasing key order, and is either the
    removal of an existing peer whose key is not wanted or the (re)addition
    of a wanted peer that differs from every existing peer with its key;
    every such peer gets its entry. *)
Theorem Encode_peer_entries `{WgLib} (spec existing : WireguardSpec) (cfg : Config) :
  Sorted KeyLt (Peers existing) -> Sorted KeyLt (Peers spec) ->
  Encode spec existing = Ok cfg ->
  exists srcs, Forall2 (MergeEntry (Peers existing) (Peers spec)) (CPeers cfg) srcs /\
    StronglySorted KeyLt srcs /\
    (forall q, In q (Peers existing) -> ~ In (PublicKey q) (map PublicKey (Peers spec)) -> In q srcs) /\
    (forall p, In p (Peers spec) -> ChangedFrom (Peers existing) p -> In p srcs).
Proof.
  intros Hex Hsp E. apply Encode_peers in E.
  assert (Ht : RelationClasses.Transitive KeyLt) by exact KeyLt_trans.
  exact (mergePeers_spec _ _ _ (Sorted_StronglySorted Ht Hex) (Sorted_StronglySorted Ht Hsp) E).
Qed.

(** The wireguard step reads the device; when its decoded settings already
    equal the wanted ones ([existingSpec.Equal(&desired)], a wanted port of 0
    matching any port) it writes nothing, otherwise it configures the device
    with [Encode]'s patch once and bumps the refresh counter once, leaving
    the kernel links as they are. *)
Theorem syncWireguard_writes_patch_once `{WgLib} (link : LinkSpec) (w w' : World) (d : Device) :
  lookup_device (SpecName link) (devices w) = Some d ->
  syncWireguard true link w = (w', Ok tt) ->
  let existing := spec_Sort (Decode emptyWireguardSpec d false) in
  let desired := spec_Sort (Wireguard link) in
  if spec_Equal existing desired then
    w' = record_call (CallWgDevice (SpecName link)) w
  else exists cfg, Encode desired existing = Ok cfg /\
    trace w' = trace w ++ [CallWgDevice (SpecName link); CallWgConfigureDevice (SpecName link);
                           CallBumpRefresh] /\
    devices w' = update_device (SpecName link)
                   (applyConfig (zeroPortOf (SpecName link) w) d cfg) (devices w) /\
    refreshCounter w' = refreshCounter w + 1 /\
    kernelLinks w' = kernelLinks w.
Proof.
  intros Hd E. cbv zeta. unfold syncWireguard in E. cbn [negb] in E.
  apply bind_ok in E as [w1 [dev [E1 E]]].
  apply wrap_ok in E1. unfold wgDevice in E1. apply call_ok in E1 as [_ E1].
  rewrite lookup_record_call, Hd in E1. inversion E1; subst w1 dev; clear E1.
  destruct (spec_Equal _ _).
  - inversion E; reflexivity.
  - destruct (Encode _ _) as [cfg|er] eqn:Hc; [|discriminate].
    exists cfg. split; [reflexivity|].
    apply bind_ok in E as [w2 [u [E2 E]]].
    apply wrap_ok in E2. unfold wgConfigureDevice in E2. apply call_ok in E2 as [_ E2].
    cbn [devices record_call] in E2. rewrite Hd in E2. inversion E2; subst w2; clear E2.
    unfold bumpRefresh, call in E. cbn in E.
    destruct (fault _ CallBumpRefresh); inversion E; subst; cbn.
    rewrite <- !app_assoc. auto.
Qed.

Section CreateLemmas.
Context `{WgLib}.

Lemma createLink_fresh (link : LinkSpec) (w w1 : World) (o : option KernelLink) :
  Logical link = true -> Kind link = LinkKindWireguard ->
  FindLink (kernelLinks w) (SpecName link) = None ->
  createLink link w = (w1, Ok o) ->
  exists l, o = Some l /\ kernelLinks w1 = kernelLinks w ++ [l] /\
    Name l = SpecName link /\ LinkType l = ARPHRD_NONE /\
    Index l = nextIndex w /\ Flags l = 0 /\ MTU l = 1420 /\ Info l = Some LinkKindWireguard.
Proof.
  intros Hl Hk Hf E. unfold createLink in E. rewrite Hl, Hk in E. cbn in E.
  unfold bind, wrap, linkNew, call in E. cbn in E.
  destruct (fault w _) eqn:Ff; [inversion E|].
  unfold FindLink in Hf. rewrite Hf in E.
  unfold refreshLinks, linkList, call in E. cbn in E.
  destruct (fault w CallLinkList) eqn:Fl; [inversion E|].
  cbn in E. unfold FindLink in E.
  rewrite (find_app_single _ _ _ Hf) in E by (cbn; apply String.eqb_refl).
  cbn in E. inversion E; subst. eexists. split; [reflexivity|].
  repeat split; reflexivity.
Qed.

Lemma find_index_fresh (ls : list KernelLink) (n : Z) :
  Forall (fun l => Index l < n) ls -> find (fun l => Index l =? n) ls = None.
Proof.
  induction 1 as [|x ls Hx _ IH]; cbn; [reflexivity|].
  replace (Index x =? n) with false by lia. exact IH.
Qed.

End CreateLemmas.

(** A successful sync of a Running logical wireguard spec with no link of its
    name creates one at the next kernel index with the spec's name and kind,
    the wireguard link type [ARPHRD_NONE] (65534, whatever type the spec
    asks for), the spec's UP state, and the spec's MTU or 1420 when that is
    0. *)
Theorem syncLink_creates_missing_wireguard_link `{WgLib} (wg : bool) (link : LinkSpec)
    (w w' : World) :
  LinkPhase link = PhaseRunning -> Logical link = true -> Kind link = LinkKindWireguard ->
  FindLink (snapshot w) (SpecName link) = None ->
  FindLink (kernelLinks w) (SpecName link) = None ->
  Forall (fun l => Index l < nextIndex w) (kernelLinks w) ->
  syncLink wg link w = (w', Ok tt) ->
  exists k, find (fun l => Index l =? nextIndex w) (kernelLinks w') = Some k /\
    Name k = SpecName link /\ LinkType k = ARPHRD_NONE /\
    Info k = Some LinkKindWireguard /\
    (Z.land (Flags k) IFF_UP =? IFF_UP) = Up link /\
    MTU k = (if SpecMTU link =? 0 then 1420 else SpecMTU link).
Proof.
  intros Hph Hl Hk Hs Hkn Hidx E.
  unfold syncLink in E. rewrite Hph in E. unfold bind at 1 in E.
  rewrite (resolveLink_absent link w Hs) in E.
  destruct (createLink link w) as [w1 [o|er]] eqn:Hc; [|discriminate].
  destruct (createLink_fresh link w w1 o Hl Hk Hkn Hc)
    as [l [-> [Hk1 [Hn [Ht [Hi [_ [Hm Hinfo]]]]]]]].
  assert (Hfind : find (fun x => Index x =? Index l) (kernelLinks w1) = Some l).
  { rewrite Hk1. apply find_app_single; [rewrite Hi; exact (find_index_fresh _ _ Hidx)|].
    apply Z.eqb_refl. }
  destruct (syncSettings_reaches wg link w1 w' l l Hfind eq_refl eq_refl E)
    as [k [Hkf [Hup [Hmk [Hnk [Htk Hik]]]]]].
  exists k. rewrite <- Hi. split; [exact Hkf|].
  rewrite Hnk, Htk, Hik, <- Hm. auto.
Qed.

(** After the patch [Encode] computes against the decoded device is applied,
    decoding the device again gives the desired private key (when the key's
    text is what the kernel keeps of it: canonical and already clamped) and
    firewall mark, and the desired listen port unless that is 0; a desired
    port of 0 leaves a port of 0 alone and otherwise becomes the port the
    kernel binds. *)
Theorem Encode_patch_sets_device_settings `{WgLib} (desired : WireguardSpec) (d : Device)
    (cfg : Config) (zeroPort : Z) :
  (forall k, ParseKey (PrivateKey desired) = Some k ->
             KeyString (ClampKey k) = PrivateKey desired) ->
  Encode desired (spec_Sort (Decode emptyWireguardSpec d false)) = Ok cfg ->
  let d' := Decode emptyWireguardSpec (applyConfig zeroPort d cfg) false in
  PrivateKey d' = PrivateKey desired /\
  (ListenPort desired <> 0 -> ListenPort d' = ListenPort desired) /\
  (ListenPort desired = 0 -> ListenPort d' = if DListenPort d =? 0 then 0 else zeroPort) /\
  FirewallMark d' = FirewallMark desired.
Proof.
  intros Hkey E. cbv zeta. unfold Encode, rbind in E.
  cbn [spec_Sort Decode PrivateKey ListenPort FirewallMark] in E.
  assert (Hport : forall c, CListenPort c = (if DListenPort d =? ListenPort desired then None
                                             else Some (ListenPort desired)) ->
    (ListenPort desired <> 0 ->
       ListenPort (Decode emptyWireguardSpec (applyConfig zeroPort d c) false) = ListenPort desired) /\
    (ListenPort desired = 0 ->
       ListenPort (Decode emptyWireguardSpec (applyConfig zeroPort d c) false)
       = if DListenPort d =? 0 then 0 else zeroPort)).
  { intros c Hc. cbn. rewrite Hc.
    destruct (Z.eqb_spec (DListenPort d) (ListenPort desired)) as [Hp|Hp].
    - split; [intros _; exact Hp|]. intros H0. rewrite Hp, H0. reflexivity.
    - split.
      + intros H0. apply Z.eqb_neq in H0. rewrite H0. reflexivity.
      + intros H0. rewrite H0 in *. apply Z.eqb_neq in Hp. rewrite Hp. reflexivity. }
  destruct (String.eqb (KeyString (DPrivateKey d)) (PrivateKey desired)) eqn:Hpk.
  - destruct (mergePeers _ _) as [ps|]; [|discriminate].
    injection E as Ec. destruct (Hport cfg) as [Hp1 Hp2]; [rewrite <- Ec; reflexivity|].
    subst cfg.
    split; [cbn; apply String.eqb_eq; exact Hpk|]. split; [exact Hp1|]. split; [exact Hp2|].
    cbn. destruct (DFirewallMark d =? FirewallMark desired) eqn:Hm;
      [apply Z.eqb_eq; exact Hm|reflexivity].
  - unfold parseKey in E. destruct (ParseKey (PrivateKey desired)) as [k|] eqn:Hk; [|discriminate].
    destruct (mergePeers _ _) as [ps|]; [|discriminate].
    injection E as Ec. destruct (Hport cfg) as [Hp1 Hp2]; [rewrite <- Ec; reflexivity|].
    subst cfg.
    split; [cbn; exact (Hkey k eq_refl)|]. split; [exact Hp1|]. split; [exact Hp2|].
    cbn. destruct (DFirewallMark d =? FirewallMark desired) eqn:Hm;
      [apply Z.eqb_eq; exact Hm|reflexivity].
Qed.

Lemma Encode_peer_entries_witness :
  exists cfg, Encode x_wanted x_existing = Ok cfg /\ length (CPeers cfg) = 3%nat /\
  exists srcs, Forall2 (MergeEntry (Peers x_existing) (Peers x_wanted)) (CPeers cfg) srcs /\
    StronglySorted KeyLt srcs /\
    (forall q, In q (Peers x_existing) -> ~ In (PublicKey q) (map PublicKey (Peers x_wanted)) ->
       In q srcs) /\
    (forall p, In p (Peers x_wanted) -> ChangedFrom (Peers x_existing) p -> In p srcs).
Proof.
  destruct (Encode x_wanted x_existing) as [cfg|e] eqn:E; [|vm_compute in E; discriminate].
  exists cfg. split; [reflexivity|]. split; [vm_compute in E; inversion E; reflexivity|].
  apply (Encode_peer_entries x_wanted x_existing cfg); [| |exact E];
    repeat constructor; unfold KeyLt; vm_compute; reflexivity.
Defined.

Lemma Encode_patch_sets_device_settings_witness :
  exists cfg, Encode x_desired (spec_Sort (Decode emptyWireguardSpec x_device false)) = Ok cfg /\
  CPrivateKey cfg = Some (textKey x_privateKey) /\ CListenPort cfg = Some 0 /\
  (let d' := Decode emptyWireguardSpec (applyConfig 40000 x_device cfg) false in
   PrivateKey d' = PrivateKey x_desired /\
   (ListenPort x_desired <> 0 -> ListenPort d' = ListenPort x_desired) /\
   (ListenPort x_desired = 0 ->
      ListenPort d' = if DListenPort x_device =? 0 then 0 else 40000) /\
   FirewallMark d' = FirewallMark x_desired).
Proof.
  destruct (Encode x_desired (spec_Sort (Decode emptyWireguardSpec x_device false)))
    as [cfg|e] eqn:E; [|vm_compute in E; discriminate].
  exists cfg. split; [reflexivity|].
  split; [vm_compute in E; inversion E; reflexivity|].
  split; [vm_compute in E; inversion E; reflexivity|].
  apply (Encode_patch_sets_device_settings x_desired x_device cfg 40000); [|exact E].
  intros k Hk. vm_compute in Hk. inversion Hk. vm_compute. reflexivity.
Defined.

Lemma runPrelude_ok_witness :
  exists w1 items, runPrelude world_cycle = (w1, Ok items) /\ length items = 3%nat /\
    items = specs world_cycle /\ kernelLinks w1 = kernelLinks world_cycle /\
    snapshot w1 = kernelLinks w1 /\
    trace w1 = trace world_cycle ++ CallListSpecs ::
      map (fun it => CallAddFinalizer (SpecName it)) (filter isRunning items) ++ [CallLinkList] /\
    (forall n, In n (finalizers w1) <-> In n (finalizers world_cycle) \/
       exists it, In it items /\ LinkPhase it = PhaseRunning /\ SpecName it = n).
Proof.
  destruct (runPrelude world_cycle) as [w1 [items|e]] eqn:E; [|vm_compute in E; discriminate].
  exists w1, items. split; [reflexivity|].
  split; [vm_compute in E; inversion E; reflexivity|].
  exact (runPrelude_ok world_cycle w1 items E).
Defined.


Lemma syncLink_reaches_up_and_mtu_witness :
  exists w1 w' k0, resolveLink spec_eth0_mtu9000 world_eth0_bond0 = (w1, Ok (Some link_eth0)) /\
    find (fun l => Index l =? Index link_eth0) (kernelLinks w1) = Some k0 /\
    syncLink true spec_eth0_mtu9000 world_eth0_bond0 = (w', Ok tt) /\
    exists k, find (fun l => Index l =? Index link_eth0) (kernelLinks w') = Some k /\
      (Z.land (Flags k) IFF_UP =? IFF_UP) = Up spec_eth0_mtu9000 /\
      MTU k = (if SpecMTU spec_eth0_mtu9000 =? 0 then MTU link_eth0 else SpecMTU spec_eth0_mtu9000) /\
      Name k = Name k0 /\ LinkType k = LinkType k0 /\ Info k = Info k0.
Proof.
  destruct (resolveLink spec_eth0_mtu9000 world_eth0_bond0) as [w1 r1] eqn:Er.
  destruct (syncLink true spec_eth0_mtu9000 world_eth0_bond0) as [w' r] eqn:E.
  assert (Hr1 : r1 = Ok (Some link_eth0)) by (vm_compute in Er; inversion Er; reflexivity).
  assert (Hr : r = Ok tt) by (vm_compute in E; inversion E; reflexivity).
  subst r1 r.
  assert (Hk : find (fun l => Index l =? Index link_eth0) (kernelLinks w1) = Some link_eth0)
    by (vm_compute in Er; inversion Er; reflexivity).
  exists w1, w', link_eth0. split; [reflexivity|]. split; [exact Hk|]. split; [reflexivity|].
  exact (syncLink_reaches_up_and_mtu true spec_eth0_mtu9000 world_eth0_bond0 w1 w'
           link_eth0 link_eth0 eq_refl Er Hk eq_refl eq_refl E).
Defined.

Lemma syncLink_creates_missing_wireguard_link_witness :
  let '(w', r) := syncLink true spec_wg0_new world_eth0 in
  r = Ok tt /\
  exists k, find (fun l => Index l =? nextIndex world_eth0) (kernelLinks w') = Some k /\
    Name k = SpecName spec_wg0_new /\ LinkType k = ARPHRD_NONE /\
    Info k = Some LinkKindWireguard /\
    (Z.land (Flags k) IFF_UP =? IFF_UP) = Up spec_wg0_new /\
    MTU k = (if SpecMTU spec_wg0_new =? 0 then 1420 else SpecMTU spec_wg0_new).
Proof.
  destruct (syncLink true spec_wg0_new world_eth0) as [w' r] eqn:E.
  assert (Hr : r = Ok tt) by (vm_compute in E; inversion E; reflexivity).
  subst r. split; [reflexivity|].
  apply (syncLink_creates_missing_wireguard_link true spec_wg0_new world_eth0 w');
    [reflexivity|reflexivity|reflexivity|vm_compute; reflexivity|vm_compute; reflexivity| |exact E].
  repeat constructor; cbn; lia.
Defined.

Lemma syncWireguard_writes_patch_once_witness :
  let '(w', r) := syncWireguard true spec_wg0_c1 world_wg0_c1 in
  r = Ok tt /\
  (let existing := spec_Sort (Decode emptyWireguardSpec c1_device false) in
   let desired := spec_Sort (Wireguard spec_wg0_c1) in
   if spec_Equal existing desired then
     w' = record_call (CallWgDevice (SpecName spec_wg0_c1)) world_wg0_c1
   else exists cfg, Encode desired existing = Ok cfg /\
     trace w' = trace world_wg0_c1 ++ [CallWgDevice (SpecName spec_wg0_c1);
                  CallWgConfigureDevice (SpecName spec_wg0_c1); CallBumpRefresh] /\
     devices w' = update_device (SpecName spec_wg0_c1)
                    (applyConfig (zeroPortOf (SpecName spec_wg0_c1) world_wg0_c1) c1_device cfg)
                    (devices world_wg0_c1) /\
     refreshCounter w' = refreshCounter world_wg0_c1 + 1 /\
     kernelLinks w' = kernelLinks world_wg0_c1).
Proof.
  destruct (syncWireguard true spec_wg0_c1 world_wg0_c1) as [w' r] eqn:E.
  assert (Hr : r = Ok tt) by (vm_compute in E; inversion E; reflexivity).
  subst r. split; [reflexivity|].
  exact (syncWireguard_writes_patch_once spec_wg0_c1 world_wg0_c1 w' c1_device eq_refl E).
Defined.
